(** * The [async-no-await] rule of eslint-plugin-promise

    A shallow embedding of [src/rules/async-no-await.ts]: the scope chain
    kept in the closure variable [scopeInfo], the five listeners that the
    rule's [create] returns, the selector table that binds them to node
    types, and the pre-/post-order walk that the linter drives them with.
    The type checker is an abstract oracle. *)

From Stdlib Require Import List Bool Arith Lia String DecimalString.
Import ListNotations.
Set Warnings "-register-all".
Local Open Scope list_scope.

(** ** Syntax trees *)

(** The [type] tag of an ESTree node.  The rule's selectors and its
    [callee.type === "Identifier"] test only tell these apart; every other
    tag is an [OtherType]. *)
Inductive NodeType : Type :=
| FunctionDeclaration
| FunctionExpression
| ArrowFunctionExpression
| AwaitExpression
| ReturnStatement
| ForOfStatement
| CallExpression
| Identifier
| MemberExpression
| OtherType (tag : string).

Record Position : Type := mkPosition { line : nat; column : nat }.

Record SourceLocation : Type := mkLoc { start : Position; end_ : Position }.

(** A node object: its tag, the attributes the rule reads ([async] of a
    function, [await] of a for-of statement, [name] of an identifier, [loc])
    and its child nodes in visitor-key order, which is document order.  The
    callee of a call expression is its first child. *)
Inductive Node : Type :=
  mkNode { type : NodeType;
           async : bool;
           await : bool;
           name : string;
           loc : SourceLocation;
           children : list Node }.

(** Node objects are compared by reference in JavaScript.  A reference is
    modelled by the position of the node in the program (the child indices
    from the root) together with the node itself. *)
Definition Path : Type := list nat.

Definition NodeRef : Type := (Path * Node)%type.

Definition path_eqb (p q : Path) : bool :=
  if list_eq_dec Nat.eq_dec p q then true else false.

Definition callee (node : Node) : option Node := hd_error (children node).

Definition isIdentifier (n : Node) : bool :=
  match type n with Identifier => true | _ => false end.

Definition isCall (n : Node) : bool :=
  match type n with CallExpression => true | _ => false end.

(** [FunctionNode] of the source: the three function-like node types. *)
Definition isFunctionNode (n : Node) : bool :=
  match type n with
  | FunctionDeclaration | FunctionExpression | ArrowFunctionExpression => true
  | _ => false
  end.

(** [ShortCircuitExpression] nodes as the selectors pick them: await
    expressions (among them the body of a bare-await arrow), return
    statements and for-await loops. *)
Definition isSuspensionBoundary (n : Node) : bool :=
  match type n with
  | AwaitExpression | ReturnStatement => true
  | ForOfStatement => await n
  | _ => false
  end.

Definition opensScope (n : Node) : bool :=
  isFunctionNode n || isSuspensionBoundary n.

(** ** The walk that drives the listeners *)

(** The linter's traverser, which the rule is written against: [enter] is
    called on a node before its children and [leave] after them, children in
    order, so that enter and exit calls are nested like the tree.  Both
    callbacks see the chain of enclosing nodes, innermost first; child [i] of
    the node at [p] is at [p ++ [i]]. *)
Section Walk.
Context {A : Type}.
Variable enter : list NodeRef -> NodeRef -> list A.
Variable leave : list NodeRef -> NodeRef -> list A.

Fixpoint walk (encl : list NodeRef) (p : Path) (n : Node) {struct n} : list A :=
  enter encl (p, n)
  ++ match n with
     | mkNode _ _ _ _ _ cs =>
         (fix forest (i : nat) (l : list Node) {struct l} : list A :=
            match l with
            | [] => []
            | c :: l' => walk ((p, n) :: encl) (p ++ [i]) c ++ forest (S i) l'
            end) 0 cs
     end
  ++ leave encl (p, n).

(** The walk over the nodes [cs], which are the children of the node at [p]
    from the [i]-th on; [encl] is the chain they share. *)
Fixpoint walkForest (encl : list NodeRef) (p : Path) (i : nat) (cs : list Node)
  : list A :=
  match cs with
  | [] => []
  | c :: cs' => walk encl (p ++ [i]) c ++ walkForest encl p (S i) cs'
  end.

End Walk.

(** ** Positions in a program *)

(** The part of the output of a walk that sits at position [q]. *)
Definition keepAt {A : Type} (pathOf : A -> Path) (q : Path) (l : list A)
  : list A :=
  filter (fun x => path_eqb (pathOf x) q) l.

(** Every node of the subtree in document order, with its enclosing chain. *)
Definition preorder (encl : list NodeRef) (p : Path) (n : Node)
  : list (NodeRef * list NodeRef) :=
  walk (fun e ref => [(ref, e)]) (fun _ _ => []) encl p n.

(** The nodes of a program. *)
Definition nodesOf (root : Node) : list (NodeRef * list NodeRef) :=
  preorder [] [] root.

(** The nodes strictly below the node [f] found at [p], each with the chain
    of nodes between it and [f] (innermost first, [f] left out). *)
Definition nodesBelow (p : Path) (f : Node) : list (NodeRef * list NodeRef) :=
  walkForest (fun e ref => [(ref, e)]) (fun _ _ => []) [] p 0 (children f).

(** The innermost enclosing node for which the rule pushes a record: a
    function or a suspension boundary. *)
Definition nearestScopeOpener (encl : list NodeRef) : option NodeRef :=
  find (fun a => opensScope (snd a)) encl.

(** The innermost enclosing function. *)
Definition nearestFunction (encl : list NodeRef) : option NodeRef :=
  find (fun a => isFunctionNode (snd a)) encl.

(** No scope-opening node in the chain. *)
Definition noScopeOpener (encl : list NodeRef) : bool :=
  forallb (fun a => negb (opensScope (snd a))) encl.

(** The nearest enclosing scope-opening node is an asynchronous function. *)
Definition checkable (encl : list NodeRef) : bool :=
  match nearestScopeOpener encl with
  | Some a => isFunctionNode (snd a) && async (snd a)
  | None => false
  end.

(** [callee.type === "Identifier"] *)
Definition identifierCallee (n : Node) : bool :=
  match callee n with
  | Some c => isIdentifier c
  | None => false
  end.

(** ** Selectors *)

(** The selectors that occur as keys of the object [create] returns. *)
Inductive Selector : Type :=
| SelFunctionDeclaration
| SelFunctionExpression
| SelArrowFunctionExpression
| SelAwaitExpression
| SelReturnStatement
| SelForOfAwait            (* ForOfStatement[await = true] *)
| SelAsyncArrowAwait       (* ArrowFunctionExpression[async = true] > AwaitExpression *)
| SelCallExpression.

Inductive Phase : Type := Enter | Exit.

(** One listener call: the key it is registered under and the node. *)
Definition Event : Type := (Phase * Selector * NodeRef)%type.

Definition parentOf (encl : list NodeRef) : option Node :=
  option_map snd (hd_error encl).

(** Does the selector match the node?  [parent] is the node's parent, which
    the child combinator [>] looks at. *)
Definition matches (sel : Selector) (parent : option Node) (n : Node) : bool :=
  match sel, type n with
  | SelFunctionDeclaration, FunctionDeclaration => true
  | SelFunctionExpression, FunctionExpression => true
  | SelArrowFunctionExpression, ArrowFunctionExpression => true
  | SelAwaitExpression, AwaitExpression => true
  | SelReturnStatement, ReturnStatement => true
  | SelForOfAwait, ForOfStatement => await n
  | SelAsyncArrowAwait, AwaitExpression =>
      match parent with
      | Some q =>
          match type q with
          | ArrowFunctionExpression => async q
          | _ => false
          end
      | None => false
      end
  | SelCallExpression, CallExpression => true
  | _, _ => false
  end.

(** The keys bound to [enterFunction] and [exitFunction]. *)
Definition functionSelector (sel : Selector) : bool :=
  match sel with
  | SelFunctionDeclaration | SelFunctionExpression
  | SelArrowFunctionExpression => true
  | _ => false
  end.

(** The keys bound to [enterShortCircuitExpression] and
    [exitShortCircuitExpression]. *)
Definition shortCircuitSelector (sel : Selector) : bool :=
  match sel with
  | SelAwaitExpression | SelReturnStatement | SelForOfAwait
  | SelAsyncArrowAwait => true
  | _ => false
  end.

Definition selectors : list Selector :=
  [SelFunctionDeclaration; SelFunctionExpression; SelArrowFunctionExpression;
   SelAwaitExpression; SelReturnStatement; SelForOfAwait; SelAsyncArrowAwait;
   SelCallExpression].

(** The keys of the object [create] returns: every selector on entry, and
    every selector but [CallExpression] with [:exit]. *)
Definition registered (ph : Phase) (sel : Selector) : bool :=
  match ph, sel with
  | Exit, SelCallExpression => false
  | _, _ => true
  end.

(** The listener calls made for one node in one phase: one call for each
    registered key whose selector matches it.  Selectors that match the same
    node are bound to the same function in this rule, so their relative order
    plays no role. *)
Definition nodeEvents (ph : Phase) (encl : list NodeRef) (ref : NodeRef)
  : list Event :=
  map (fun sel => (ph, sel, ref))
      (filter (fun sel => registered ph sel
                          && matches sel (parentOf encl) (snd ref))
              selectors).

(** All listener calls of the walk over the subtree [n] found at [p]. *)
Definition traverse (encl : list NodeRef) (p : Path) (n : Node) : list Event :=
  walk (nodeEvents Enter) (nodeEvents Exit) encl p n.

(** ** Rule state *)

(** [interface ScopeInfo]: a chain of records linked by [upper]. *)
Inductive ScopeInfo : Type :=
  mkScopeInfo { upper : option ScopeInfo;
                hasAsyncCheck : bool;
                noAwaitCalls : list string }.

Inductive MessageId : Type :=
| noAwaitBeforeReturnPromise
| asyncCallNoAwait.

(** The descriptor object handed to [context.report].  [data] of a summary
    is the [noAwaitCalls] array of the record on top; that record is dropped
    right after the report and never pushed on again, so the list at the time
    of the report is the payload. *)
Record Report : Type :=
  mkReport { node : NodeRef;
             rloc : SourceLocation;
             messageId : MessageId;
             data : option (list string) }.

(** What [create] closes over: the [scopeInfo] variable and the reports
    passed to [context.report] so far (oldest first).  [typeQueries] is a
    ghost log of the call nodes whose type the checker was asked for. *)
Record State : Type :=
  mkState { scopeInfo : option ScopeInfo;
            reports : list Report;
            typeQueries : list NodeRef }.

Definition initialState : State := mkState None [] [].

Definition setScope (sc : option ScopeInfo) (s : State) : State :=
  mkState sc (reports s) (typeQueries s).

Definition context_report (r : Report) (s : State) : State :=
  mkState (scopeInfo s) (reports s ++ [r]) (typeQueries s).

(** The diagnostics reported on the node at [p]. *)
Definition reportsAt (p : Path) (rs : list Report) : list Report :=
  keepAt (fun r => fst (node r)) p rs.

Fixpoint chainFrom (sc : ScopeInfo) : list ScopeInfo :=
  match sc with
  | mkScopeInfo up _ _ =>
      sc :: match up with
            | Some u => chainFrom u
            | None => []
            end
  end.

(** The records reachable from [scopeInfo], top first. *)
Definition scopeStack (s : State) : list ScopeInfo :=
  match scopeInfo s with
  | Some sc => chainFrom sc
  | None => []
  end.

(** Every record whose check is switched off has an empty [noAwaitCalls]. *)
Definition suppressedScopesEmpty (s : State) : bool :=
  forallb (fun r => hasAsyncCheck r || (List.length (noAwaitCalls r) =? 0))
          (scopeStack s).

(** [hasAsyncCheck] of the top record; no record counts as switched off. *)
Definition topCheck (sc : option ScopeInfo) : bool :=
  match sc with
  | Some r => hasAsyncCheck r
  | None => false
  end.

(** The top record with [l] pushed on its [noAwaitCalls]. *)
Definition appendCalls (l : list string) (sc : option ScopeInfo)
  : option ScopeInfo :=
  match sc with
  | Some r => Some (mkScopeInfo (upper r) (hasAsyncCheck r) (noAwaitCalls r ++ l))
  | None => None
  end.

(** [s'] is [s] with [calls] pushed on the top record's [noAwaitCalls] and
    [reps] reported. *)
Definition pushed (calls : list string) (reps : list Report) (s s' : State)
  : Prop :=
  scopeInfo s' = appendCalls calls (scopeInfo s)
  /\ reports s' = reports s ++ reps.

(** The template literal [`${callee.name}(line: ${callee.loc.start.line})`]. *)
Definition descriptor (callee : Node) : string :=
  (name callee ++ "(line: "
     ++ NilZero.string_of_uint (Nat.to_uint (line (start (loc callee)))) ++ ")")%string.

Definition calleeDescriptor (ref : NodeRef) : string :=
  match callee (snd ref) with
  | Some c => descriptor c
  | None => EmptyString
  end.

Definition calleeLoc (ref : NodeRef) : SourceLocation :=
  match callee (snd ref) with
  | Some c => loc c
  | None => loc (snd ref)
  end.

(** ** The rule *)

(** What the rule gets from its host: the parser services' node map, the
    type checker with [tsutils.isThenableType], and
    [utils.getFunctionHeadLoc(node, sourceCode)], a helper of the plugin that
    lives outside this rule's file.  [TSNode] and [TSType] are the compiler's
    node and type objects. *)
Class Services : Type :=
  { TSNode : Type;
    TSType : Type;
    esTreeNodeToTSNodeMap : NodeRef -> option TSNode;
    getTypeAtLocation : TSNode -> TSType;
    tsutils_isThenableType : TSNode -> TSType -> bool;
    getFunctionHeadLoc : NodeRef -> SourceLocation }.

Section Rule.
Context {services : Services}.

(** [enterFunction]: push a record for the function. *)
Definition enterFunction (node : NodeRef) (s : State) : State :=
  setScope (Some (mkScopeInfo (scopeInfo s) (async (snd node)) [])) s.

(** [exitFunction]: report the function if needed, then pop. *)
Definition exitFunction (node : NodeRef) (s : State) : State :=
  match scopeInfo s with
  | None => s
  | Some sc =>
      let s1 :=
        if async (snd node) && (0 <? List.length (noAwaitCalls sc))
        then context_report
               (mkReport node (getFunctionHeadLoc node)
                         noAwaitBeforeReturnPromise (Some (noAwaitCalls sc))) s
        else s in
      setScope (upper sc) s1
  end.

(** [enterShortCircuitExpression]: push a record that switches the check
    off. *)
Definition enterShortCircuitExpression (node : NodeRef) (s : State) : State :=
  setScope (Some (mkScopeInfo (scopeInfo s) false [])) s.

(** [exitShortCircuitExpression]: pop. *)
Definition exitShortCircuitExpression (node : NodeRef) (s : State) : State :=
  match scopeInfo s with
  | None => s
  | Some sc => setScope (upper sc) s
  end.

(** [isThenableType]: one query of the checker, logged under the call node
    [node] that [tsnode] was looked up for. *)
Definition isThenableType (node : NodeRef) (tsnode : TSNode) (s : State)
  : bool * State :=
  let ty := getTypeAtLocation tsnode in
  (tsutils_isThenableType tsnode ty,
   mkState (scopeInfo s) (reports s) (typeQueries s ++ [node])).

(** [addNoAwaitCalls]: push the descriptor on the top record's array and
    report at the callee. *)
Definition addNoAwaitCalls (callee : Node) (node : NodeRef) (s : State) : State :=
  match scopeInfo s with
  | None => s
  | Some sc =>
      let sc' := mkScopeInfo (upper sc) (hasAsyncCheck sc)
                             (noAwaitCalls sc ++ [descriptor callee]) in
      context_report (mkReport node (loc callee) asyncCallNoAwait None)
                     (setScope (Some sc') s)
  end.

(** The [CallExpression] listener. *)
Definition onCallExpression (node : NodeRef) (s : State) : State :=
  match scopeInfo s with
  | None => s
  | Some sc =>
      if negb (hasAsyncCheck sc) then s
      else
        match esTreeNodeToTSNodeMap node with
        | None => s
        | Some tsnode =>
            let (thenable, s1) := isThenableType node tsnode s in
            if thenable then
              match callee (snd node) with
              | Some c => if isIdentifier c then addNoAwaitCalls c node s1 else s1
              | None => s1
              end
            else s1
        end
  end.

(** The object returned by [create], as a function of its key.  There is no
    [CallExpression:exit] key. *)
Definition listener (ph : Phase) (sel : Selector)
  : option (NodeRef -> State -> State) :=
  match ph, sel with
  | Enter, SelFunctionDeclaration => Some enterFunction
  | Enter, SelFunctionExpression => Some enterFunction
  | Enter, SelArrowFunctionExpression => Some enterFunction
  | Exit, SelFunctionDeclaration => Some exitFunction
  | Exit, SelFunctionExpression => Some exitFunction
  | Exit, SelArrowFunctionExpression => Some exitFunction
  | Enter, SelAwaitExpression => Some enterShortCircuitExpression
  | Exit, SelAwaitExpression => Some exitShortCircuitExpression
  | Enter, SelReturnStatement => Some enterShortCircuitExpression
  | Exit, SelReturnStatement => Some exitShortCircuitExpression
  | Enter, SelForOfAwait => Some enterShortCircuitExpression
  | Exit, SelForOfAwait => Some exitShortCircuitExpression
  | Enter, SelAsyncArrowAwait => Some enterShortCircuitExpression
  | Exit, SelAsyncArrowAwait => Some exitShortCircuitExpression
  | Enter, SelCallExpression => Some onCallExpression
  | Exit, SelCallExpression => None
  end.

Definition emit (e : Event) (s : State) : State :=
  match e with
  | (ph, sel, node) =>
      match listener ph sel with
      | Some handler => handler node s
      | None => s
      end
  end.

(** The rule run on a sequence of listener calls. *)
Definition run (evs : list Event) (s : State) : State :=
  fold_left (fun st e => emit e st) evs s.

(** Linting a program: the walk over its tree from the empty state. *)
Definition analyse (root : Node) : State :=
  run (traverse [] [] root) initialState.

(** ** Vocabulary of the specification *)

(** The checker's answer for a call node: its type is thenable. *)
Definition thenable (ref : NodeRef) : bool :=
  match esTreeNodeToTSNodeMap ref with
  | Some tsnode => tsutils_isThenableType tsnode (getTypeAtLocation tsnode)
  | None => false
  end.

(** A thenable-returning call through a plain identifier callee. *)
Definition thenableIdentifierCall (ref : NodeRef) : bool :=
  isCall (snd ref) && thenable ref && identifierCallee (snd ref).

(** The calls of the function [f] at [p]: the thenable identifier calls below
    [f] with no function and no suspension boundary between [f] and the call,
    in document order. *)
Definition ownCalls (p : Path) (f : Node) : list NodeRef :=
  map fst
      (filter (fun x => thenableIdentifierCall (fst x) && noScopeOpener (snd x))
              (nodesBelow p f)).

(** The two diagnostics. *)
Definition callReport (ref : NodeRef) : Report :=
  mkReport ref (calleeLoc ref) asyncCallNoAwait None.

Definition summaryReport (ref : NodeRef) (calls : list string) : Report :=
  mkReport ref (getFunctionHeadLoc ref) noAwaitBeforeReturnPromise (Some calls).

(** ** What the walk reports, node by node *)

(** The thenable identifier calls of the subtree [n] that no scope-opening
    node of the chain encloses. *)
Definition directCalls (encl : list NodeRef) (p : Path) (n : Node) : list NodeRef :=
  walk (fun e ref =>
          if thenableIdentifierCall ref && noScopeOpener e then [ref] else [])
       (fun _ _ => []) encl p n.

Definition directCallsForest (encl : list NodeRef) (p : Path) (i : nat)
  (cs : list Node) : list NodeRef :=
  walkForest (fun e ref =>
                if thenableIdentifierCall ref && noScopeOpener e then [ref] else [])
             (fun _ _ => []) encl p i cs.

(** Reported when the walk enters a node. *)
Definition enterReports (encl : list NodeRef) (ref : NodeRef) : list Report :=
  if thenableIdentifierCall ref && checkable encl then [callReport ref] else [].

(** Reported when the walk leaves a node. *)
Definition leaveReports (encl : list NodeRef) (ref : NodeRef) : list Report :=
  if isFunctionNode (snd ref) && async (snd ref)
     && (0 <? List.length (ownCalls (fst ref) (snd ref)))
  then [summaryReport ref (map calleeDescriptor (ownCalls (fst ref) (snd ref)))]
  else [].

End Rule.

(** Two hosts give the same answers on the call nodes of [evs], and the same
    function heads. *)
Definition sameAnswers (sv1 sv2 : Services) (evs : list Event) : Prop :=
  forall ph sel ref,
    In (ph, sel, ref) evs ->
    @thenable sv1 ref = @thenable sv2 ref
    /\ (@esTreeNodeToTSNodeMap sv1 ref = None
        <-> @esTreeNodeToTSNodeMap sv2 ref = None)
    /\ @getFunctionHeadLoc sv1 ref = @getFunctionHeadLoc sv2 ref.

(** ** Diagnostics that account for each other *)

(** Some [asyncCallNoAwait] of [rs] is on a call with descriptor [d]. *)
Definition callReported (d : string) (rs : list Report) : Prop :=
  exists rc,
    In rc rs /\ messageId rc = asyncCallNoAwait
    /\ calleeDescriptor (node rc) = d.

(** Every descriptor held by a record of the chain has been reported. *)
Definition pendingReported (s : State) : Prop :=
  forall r, In r (scopeStack s) ->
            forall d, In d (noAwaitCalls r) -> callReported d (reports s).

(** Every descriptor in the payload of a summary was reported before the
    summary. *)
Definition summariesFollowCalls (rs : list Report) : Prop :=
  forall l1 rep l2 ds,
    rs = l1 ++ rep :: l2 ->
    messageId rep = noAwaitBeforeReturnPromise ->
    data rep = Some ds ->
    forall d, In d ds -> callReported d l1.

(** ** What the walk asks the checker *)

Section Queries.
Context {services : Services}.

(** Every [asyncCallNoAwait] is on a node that the checker was asked about
    and found thenable, with an identifier callee, and sits at the callee. *)
Definition callReportsChecked (s : State) : Prop :=
  forall rep,
    In rep (reports s) ->
    messageId rep = asyncCallNoAwait ->
    thenable (node rep) = true
    /\ identifierCallee (snd (node rep)) = true
    /\ rloc rep = calleeLoc (node rep)
    /\ In (node rep) (typeQueries s).

(** The parser services know a TypeScript node for the node. *)
Definition hasTSNode (ref : NodeRef) : bool :=
  match esTreeNodeToTSNodeMap ref with
  | Some _ => true
  | None => false
  end.

(** Asked when the walk enters a node: the type of a call under a checkable
    chain, provided the node map knows the call. *)
Definition enterQueries (encl : list NodeRef) (ref : NodeRef) : list NodeRef :=
  if isCall (snd ref) && checkable encl && hasTSNode ref then [ref] else [].

End Queries.

(** ** Sample programs and hosts *)

Definition span (l c1 c2 : nat) : SourceLocation :=
  mkLoc (mkPosition l c1) (mkPosition l c2).

Definition ident (nm : string) (l c : nat) : Node :=
  mkNode Identifier false false nm (span l c (c + String.length nm)) [].

Definition plain (tag : string) (lc : SourceLocation) (cs : list Node) : Node :=
  mkNode (OtherType tag) false false EmptyString lc cs.

Definition callOf (lc : SourceLocation) (cl : Node) (args : list Node) : Node :=
  mkNode CallExpression false false EmptyString lc (cl :: args).

Definition functionOf (ty : NodeType) (isAsync : bool) (lc : SourceLocation)
  (cs : list Node) : Node :=
  mkNode ty isAsync false EmptyString lc cs.

Definition awaitOf (lc : SourceLocation) (arg : Node) : Node :=
  mkNode AwaitExpression false false EmptyString lc [arg].

Definition returnOf (lc : SourceLocation) (arg : Node) : Node :=
  mkNode ReturnStatement false false EmptyString lc [arg].

Definition stmt (n : Node) : Node := plain "ExpressionStatement"%string (loc n) [n].

Definition block (cs : list Node) : Node :=
  plain "BlockStatement"%string (span 1 19 27) cs.

Definition program (cs : list Node) : Node := plain "Program"%string (span 1 0 27) cs.

(** [g()] *)
Definition callG : Node := callOf (span 1 21 24) (ident "g"%string 1 21) [].

(** [obj.g()] *)
Definition callObjG : Node :=
  callOf (span 1 21 28)
         (mkNode MemberExpression false false EmptyString (span 1 21 26)
                 [ident "obj"%string 1 21; ident "g"%string 1 25]) [].

(** [function f() { ... }], asynchronous or not. *)
Definition declF (isAsync : bool) (body : list Node) : Node :=
  functionOf FunctionDeclaration isAsync (span 1 0 27)
             [ident "f"%string 1 15; block body].

(** [async function f() { g(); }] *)
Definition unawaitedProgram : Node := program [declF true [stmt callG]].

(** [async function f() { await g(); }] *)
Definition awaitedProgram : Node :=
  program [declF true [stmt (awaitOf (span 1 21 30) callG)]].

(** [function f() { g(); }] *)
Definition syncProgram : Node := program [declF false [stmt callG]].

(** [async function f() { obj.g(); }] *)
Definition memberProgram : Node := program [declF true [stmt callObjG]].

(** [async function inner() { g(); }] *)
Definition declInner : Node :=
  functionOf FunctionDeclaration true (span 1 26 55)
             [ident "inner"%string 1 41; block [stmt callG]].

(** [async function outer() { async function inner() { g(); } }] *)
Definition declOuter : Node :=
  functionOf FunctionDeclaration true (span 1 0 57)
             [ident "outer"%string 1 15; block [declInner]].

Definition nestedProgram : Node := program [declOuter].

(** [async () => { g(); }] *)
Definition arrowG : Node :=
  functionOf ArrowFunctionExpression true (span 1 28 49) [block [stmt callG]].

(** [async function f() { await (async () => { g(); })(); }] *)
Definition awaitedArrowProgram : Node :=
  program [declF true [stmt (awaitOf (span 1 21 53)
                                     (callOf (span 1 27 53) arrowG []))]].

(** [async function f() { return g(); }] *)
Definition returnedProgram : Node :=
  program [declF true [returnOf (span 1 21 32) callG]].

(** [(async () => await g());] *)
Definition bareAwaitArrowProgram : Node :=
  program [stmt (functionOf ArrowFunctionExpression true (span 1 1 21)
                            [awaitOf (span 1 13 21) callG])].

(** [async function f() { for await (const x of xs) { g(); } }] *)
Definition forAwaitProgram : Node :=
  program
    [declF true
       [mkNode ForOfStatement false true EmptyString (span 1 21 58)
               [ident "x"%string 1 38; ident "xs"%string 1 43;
                block [stmt callG]]]].

(** [for await (const x of xs) { g(); }] *)
Definition forAwaitLoop : Node :=
  mkNode ForOfStatement false true EmptyString (span 1 21 58)
         [ident "x"%string 1 38; ident "xs"%string 1 43; block [stmt callG]].

(** [for (const x of xs) { g(); }] *)
Definition plainForOfLoop : Node :=
  mkNode ForOfStatement false false EmptyString (span 1 21 52)
         [ident "x"%string 1 32; ident "xs"%string 1 37; block [stmt callG]].

(** [g();] at the top level of a module. *)
Definition topLevelProgram : Node := program [stmt callG].

(** [async function f() { for (const x of xs) { g(); } }] *)
Definition plainForOfProgram : Node := program [declF true [plainForOfLoop]].

(** Where a diagnostic sits, its kind and its payload. *)
Definition digest (r : Report) : Path * MessageId * option (list string) :=
  (fst (node r), messageId r, data r).

(** The key and position of a listener call. *)
Definition trace (ev : Event) : Phase * Selector * Path :=
  (fst (fst ev), snd (fst ev), fst (snd ev)).

(** The chain of enclosing nodes of the node at [p] in [root]. *)
Definition chainAt (root : Node) (p : Path) : list NodeRef :=
  match find (fun x => path_eqb (fst (fst x)) p) (nodesOf root) with
  | Some x => snd x
  | None => []
  end.

(** A host for which every call expression has a thenable type. *)
Definition everyCallThenable : Services :=
  {| TSNode := NodeRef;
     TSType := bool;
     esTreeNodeToTSNodeMap := fun ref => Some ref;
     getTypeAtLocation := fun t => isCall (snd t);
     tsutils_isThenableType := fun _ ty => ty;
     getFunctionHeadLoc := fun ref => loc (snd ref) |}.

(** Another host with the same answers, built differently. *)
Definition everyCallThenable' : Services :=
  {| TSNode := Node;
     TSType := unit;
     esTreeNodeToTSNodeMap := fun ref => Some (snd ref);
     getTypeAtLocation := fun _ => tt;
     tsutils_isThenableType := fun t _ => isCall t;
     getFunctionHeadLoc := fun ref => loc (snd ref) |}.

(** A state with one function record on top of one suspension record. *)
Definition sampleState : State :=
  mkState (Some (mkScopeInfo (Some (mkScopeInfo None false [])) true
                             ["g(line: 1)"%string]))
          [] [].

(** ** Induction over syntax trees *)

Section NodeInduction.
Variable P : Node -> Prop.
Hypothesis step : forall n, Forall P (children n) -> P n.

Fixpoint Node_forall_ind (n : Node) : P n :=
  match n as n0 return (Forall P (children n0) -> P n0) -> P n0 with
  | mkNode ty a w nm l cs =>
      fun k =>
        k ((fix all (l0 : list Node) : Forall P l0 :=
              match l0 with
              | [] => Forall_nil P
              | c :: l1 => Forall_cons c (Node_forall_ind c) (all l1)
              end) cs)
  end (step n).

End NodeInduction.

(* ================================================================= *)
(** * Properties *)

(** ** Facts about the walk *)

Lemma walk_eq {A : Type} (enter leave : list NodeRef -> NodeRef -> list A)
  (encl : list NodeRef) (p : Path) (n : Node) :
  walk enter leave encl p n =
  enter encl (p, n)
  ++ walkForest enter leave ((p, n) :: encl) p 0 (children n)
  ++ leave encl (p, n).
Proof.
  destruct n as [ty a w nm l cs]. cbn [walk children].
  do 2 f_equal.
  generalize ((p, mkNode ty a w nm l cs) :: encl) as e'.
  generalize 0 as i.
  induction cs as [|c cs IH]; intros i e'; cbn [walkForest]; [reflexivity|].
  now rewrite IH.
Qed.

Lemma walkForest_cons {A : Type} (enter leave : list NodeRef -> NodeRef -> list A)
  (encl : list NodeRef) (p : Path) (i : nat) (c : Node) (cs : list Node) :
  walkForest enter leave encl p i (c :: cs) =
  walk enter leave encl (p ++ [i]) c ++ walkForest enter leave encl p (S i) cs.
Proof. reflexivity. Qed.

(** Two walks agree when their callbacks agree on every chain that extends
    the starting ones. *)
Lemma walk_ctx_ext {A : Type}
  (enter1 leave1 enter2 leave2 : list NodeRef -> NodeRef -> list A)
  (ctx1 ctx2 : list NodeRef) :
  (forall e ref, enter1 (e ++ ctx1) ref = enter2 (e ++ ctx2) ref) ->
  (forall e ref, leave1 (e ++ ctx1) ref = leave2 (e ++ ctx2) ref) ->
  forall n e p,
    walk enter1 leave1 (e ++ ctx1) p n = walk enter2 leave2 (e ++ ctx2) p n.
Proof.
  intros Hen Hle n.
  induction n as [n IH] using Node_forall_ind; intros e p.
  rewrite !walk_eq, Hen, Hle. do 2 f_equal.
  change ((p, n) :: e ++ ctx1) with (((p, n) :: e) ++ ctx1).
  change ((p, n) :: e ++ ctx2) with (((p, n) :: e) ++ ctx2).
  generalize ((p, n) :: e) as e'. generalize 0 as i.
  induction IH as [|c cs Hc _ IHcs]; intros i e'; cbn [walkForest]; [reflexivity|].
  now rewrite Hc, IHcs.
Qed.

Lemma walkForest_ctx_ext {A : Type}
  (enter1 leave1 enter2 leave2 : list NodeRef -> NodeRef -> list A)
  (ctx1 ctx2 : list NodeRef) :
  (forall e ref, enter1 (e ++ ctx1) ref = enter2 (e ++ ctx2) ref) ->
  (forall e ref, leave1 (e ++ ctx1) ref = leave2 (e ++ ctx2) ref) ->
  forall cs e p i,
    walkForest enter1 leave1 (e ++ ctx1) p i cs
    = walkForest enter2 leave2 (e ++ ctx2) p i cs.
Proof.
  intros Hen Hle cs e p.
  induction cs as [|c cs IH]; intro i; cbn [walkForest]; [reflexivity|].
  now rewrite IH, (walk_ctx_ext _ _ _ _ _ _ Hen Hle).
Qed.

(** [flat_map] commutes with the walk. *)
Lemma walk_flat_map {A B : Type} (g : A -> list B)
  (enter leave : list NodeRef -> NodeRef -> list A) :
  forall n e p,
    flat_map g (walk enter leave e p n)
    = walk (fun e' r => flat_map g (enter e' r))
           (fun e' r => flat_map g (leave e' r)) e p n.
Proof.
  intro n. induction n as [n IH] using Node_forall_ind; intros e p.
  rewrite !walk_eq, !flat_map_app. do 2 f_equal.
  generalize ((p, n) :: e) as e'. generalize 0 as i.
  induction IH as [|c cs Hc _ IHcs]; intros i e'; cbn [walkForest]; [reflexivity|].
  now rewrite flat_map_app, Hc, IHcs.
Qed.

Lemma walkForest_flat_map {A B : Type} (g : A -> list B)
  (enter leave : list NodeRef -> NodeRef -> list A) :
  forall cs e p i,
    flat_map g (walkForest enter leave e p i cs)
    = walkForest (fun e' r => flat_map g (enter e' r))
                 (fun e' r => flat_map g (leave e' r)) e p i cs.
Proof.
  induction cs as [|c cs IH]; intros e p i; cbn [walkForest]; [reflexivity|].
  now rewrite flat_map_app, walk_flat_map, IH.
Qed.

(** ** Positions *)

Lemma path_eqb_eq (p q : Path) : path_eqb p q = true <-> p = q.
Proof.
  unfold path_eqb. destruct (list_eq_dec Nat.eq_dec p q); split; congruence.
Qed.

Lemma path_eqb_refl (p : Path) : path_eqb p p = true.
Proof. now apply path_eqb_eq. Qed.

Lemma path_eqb_neq (p q : Path) : p <> q -> path_eqb p q = false.
Proof.
  intro H. destruct (path_eqb p q) eqn:E; [|reflexivity].
  now apply path_eqb_eq in E.
Qed.

Lemma path_not_below (p r : Path) (j : nat) : p ++ j :: r <> p.
Proof.
  intro H. apply (f_equal (@List.length nat)) in H.
  rewrite length_app in H. cbn in H. lia.
Qed.

Lemma path_child_inj (p r r' : Path) (i j : nat) :
  (p ++ [i]) ++ r = p ++ j :: r' -> i = j.
Proof.
  rewrite <- app_assoc. intro H. apply app_inv_head in H. now inversion H.
Qed.

Lemma filter_none {A : Type} (f : A -> bool) (l : list A) :
  (forall x, In x l -> f x = false) -> filter f l = [].
Proof.
  induction l as [|a l IH]; intro H; cbn; [reflexivity|].
  rewrite (H a (or_introl eq_refl)). apply IH. intros x Hx. apply H. now right.
Qed.

Lemma filter_all {A : Type} (f : A -> bool) (l : list A) :
  (forall x, In x l -> f x = true) -> filter f l = l.
Proof.
  induction l as [|a l IH]; intro H; cbn; [reflexivity|].
  rewrite (H a (or_introl eq_refl)). f_equal. apply IH. intros x Hx. apply H. now right.
Qed.

(** ** Where the output of a walk comes from *)

Section Localised.
Context {A : Type}.
Variable pathOf : A -> Path.
Variable enter : list NodeRef -> NodeRef -> list A.
Variable leave : list NodeRef -> NodeRef -> list A.
Hypothesis enter_here : forall e ref x, In x (enter e ref) -> pathOf x = fst ref.
Hypothesis leave_here : forall e ref x, In x (leave e ref) -> pathOf x = fst ref.

Lemma walkForest_paths_of (cs : list Node) :
  Forall (fun c => forall e p x, In x (walk enter leave e p c) ->
                                 exists r, pathOf x = p ++ r) cs ->
  forall e p i x,
    In x (walkForest enter leave e p i cs) ->
    exists j r, i <= j /\ pathOf x = p ++ j :: r.
Proof.
  induction 1 as [|c cs Hc _ IH]; intros e p i x Hin; cbn in Hin; [easy|].
  apply in_app_or in Hin as [Hin|Hin].
  - destruct (Hc _ _ _ Hin) as [r Hr]. exists i, r. split; [lia|].
    now rewrite Hr, <- app_assoc.
  - destruct (IH _ _ _ _ Hin) as (j & r & Hj & Hr). exists j, r. split; [lia|easy].
Qed.

Lemma walk_paths (n : Node) :
  forall e p x, In x (walk enter leave e p n) -> exists r, pathOf x = p ++ r.
Proof.
  induction n as [n IH] using Node_forall_ind; intros e p x Hin.
  rewrite walk_eq in Hin.
  apply in_app_or in Hin as [Hin|Hin]; [|apply in_app_or in Hin as [Hin|Hin]].
  - exists []. rewrite app_nil_r. exact (enter_here _ _ _ Hin).
  - destruct (walkForest_paths_of _ IH _ _ _ _ Hin) as (j & r & _ & Hr).
    now exists (j :: r).
  - exists []. rewrite app_nil_r. exact (leave_here _ _ _ Hin).
Qed.

Lemma walkForest_paths (cs : list Node) :
  forall e p i x,
    In x (walkForest enter leave e p i cs) ->
    exists j r, i <= j /\ pathOf x = p ++ j :: r.
Proof.
  apply walkForest_paths_of. apply Forall_forall. intros c _. apply walk_paths.
Qed.

End Localised.

Lemma preorder_paths (n : Node) (e : list NodeRef) (p : Path)
  (x : NodeRef * list NodeRef) :
  In x (preorder e p n) -> exists r, fst (fst x) = p ++ r.
Proof.
  apply (walk_paths (fun y => fst (fst y))).
  - intros e' ref y [<-|[]]. reflexivity.
  - intros e' ref y [].
Qed.

Lemma preorderForest_paths (cs : list Node) (e : list NodeRef) (p : Path) (i : nat)
  (x : NodeRef * list NodeRef) :
  In x (walkForest (fun e' ref => [(ref, e')]) (fun _ _ => []) e p i cs) ->
  exists j r, i <= j /\ fst (fst x) = p ++ j :: r.
Proof.
  apply (walkForest_paths (fun y => fst (fst y))).
  - intros e' ref y [<-|[]]. reflexivity.
  - intros e' ref y [].
Qed.

Section At.
Context {A : Type}.
Variable pathOf : A -> Path.
Variable enter : list NodeRef -> NodeRef -> list A.
Variable leave : list NodeRef -> NodeRef -> list A.
Hypothesis enter_here : forall e ref x, In x (enter e ref) -> pathOf x = fst ref.
Hypothesis leave_here : forall e ref x, In x (leave e ref) -> pathOf x = fst ref.

Lemma keepAt_app (q : Path) (l1 l2 : list A) :
  keepAt pathOf q (l1 ++ l2) = keepAt pathOf q l1 ++ keepAt pathOf q l2.
Proof. apply filter_app. Qed.

Lemma keepAt_none (q : Path) (l : list A) :
  (forall x, In x l -> pathOf x <> q) -> keepAt pathOf q l = [].
Proof.
  intro H. apply filter_none. intros x Hx. apply path_eqb_neq. now apply H.
Qed.

Lemma keepAt_here (e : list NodeRef) (ref : NodeRef) :
  keepAt pathOf (fst ref) (enter e ref) = enter e ref
  /\ keepAt pathOf (fst ref) (leave e ref) = leave e ref.
Proof.
  split; apply filter_all; intros x Hx; apply path_eqb_eq;
    [exact (enter_here _ _ _ Hx) | exact (leave_here _ _ _ Hx)].
Qed.

Lemma keepAt_elsewhere (e : list NodeRef) (ref : NodeRef) (q : Path) :
  q <> fst ref ->
  keepAt pathOf q (enter e ref) = [] /\ keepAt pathOf q (leave e ref) = [].
Proof.
  intro Hq. split; apply keepAt_none; intros x Hx;
    [rewrite (enter_here _ _ _ Hx) | rewrite (leave_here _ _ _ Hx)]; congruence.
Qed.

Lemma walkForest_at_of (cs : list Node) :
  Forall (fun c => forall e p x encl,
              In (x, encl) (preorder e p c) ->
              keepAt pathOf (fst x) (walk enter leave e p c)
              = enter encl x ++ leave encl x) cs ->
  forall e p i x encl,
    In (x, encl) (walkForest (fun e' ref => [(ref, e')]) (fun _ _ => []) e p i cs) ->
    keepAt pathOf (fst x) (walkForest enter leave e p i cs)
    = enter encl x ++ leave encl x.
Proof.
  induction 1 as [|c cs Hc _ IH]; intros e p i x encl Hin; cbn in Hin; [easy|].
  cbn [walkForest]. rewrite keepAt_app.
  apply in_app_or in Hin as [Hin|Hin].
  - rewrite (Hc _ _ _ _ Hin).
    destruct (preorder_paths _ _ _ _ Hin) as [r Hr]. cbn in Hr.
    rewrite keepAt_none; [now rewrite app_nil_r|].
    intros y Hy.
    destruct (walkForest_paths pathOf enter leave enter_here leave_here _ _ _ _ _ Hy)
      as (j & r' & Hj & Hr').
    rewrite Hr, Hr'. intro E. symmetry in E. apply path_child_inj in E. lia.
  - destruct (preorderForest_paths _ _ _ _ _ Hin) as (j & r & Hj & Hr). cbn in Hr.
    rewrite (IH _ _ _ _ _ Hin).
    rewrite keepAt_none; [reflexivity|].
    intros y Hy.
    destruct (walk_paths pathOf enter leave enter_here leave_here _ _ _ _ Hy)
      as [r' Hr'].
    rewrite Hr, Hr'. intro E. apply path_child_inj in E. lia.
Qed.

(** What a walk yields at the position of one node is what its callbacks
    yield on that node. *)
Lemma walk_at (n : Node) :
  forall e p x encl,
    In (x, encl) (preorder e p n) ->
    keepAt pathOf (fst x) (walk enter leave e p n)
    = enter encl x ++ leave encl x.
Proof.
  induction n as [n IH] using Node_forall_ind; intros e p x encl Hin.
  unfold preorder in Hin. rewrite walk_eq in Hin. rewrite walk_eq.
  rewrite !keepAt_app.
  cbn [app] in Hin. destruct Hin as [Hin|Hin].
  - inversion Hin; subst x encl. cbn [fst].
    destruct (keepAt_here e (p, n)) as [H1 H2]. cbn [fst] in H1, H2.
    rewrite H1, H2. f_equal.
    rewrite keepAt_none; [reflexivity|].
    intros y Hy.
    destruct (walkForest_paths pathOf enter leave enter_here leave_here _ _ _ _ _ Hy)
      as (j & r & _ & Hr).
    rewrite Hr. apply path_not_below.
  - rewrite app_nil_r in Hin.
    destruct (preorderForest_paths _ _ _ _ _ Hin) as (j & r & _ & Hr). cbn in Hr.
    assert (Hne : fst x <> fst (p, n)) by (rewrite Hr; apply path_not_below).
    destruct (keepAt_elsewhere e (p, n) (fst x) Hne) as [-> ->].
    rewrite app_nil_r. cbn [app].
    exact (walkForest_at_of _ IH _ _ _ _ _ Hin).
Qed.

End At.

(** ** The scope chain *)

Lemma appendCalls_nil (sc : option ScopeInfo) : appendCalls [] sc = sc.
Proof. destruct sc as [[u h c]|]; cbn; [now rewrite app_nil_r|reflexivity]. Qed.

Lemma appendCalls_app (a b : list string) (sc : option ScopeInfo) :
  appendCalls (a ++ b) sc = appendCalls b (appendCalls a sc).
Proof. destruct sc as [[u h c]|]; cbn; [now rewrite app_assoc|reflexivity]. Qed.

Lemma topCheck_appendCalls (l : list string) (sc : option ScopeInfo) :
  topCheck (appendCalls l sc) = topCheck sc.
Proof. now destruct sc as [[u h c]|]. Qed.

Lemma pushed_refl (s : State) : pushed [] [] s s.
Proof. split; [now rewrite appendCalls_nil|now rewrite app_nil_r]. Qed.

Lemma pushed_trans (c1 c2 : list string) (r1 r2 : list Report) (s s1 s2 : State) :
  pushed c1 r1 s s1 -> pushed c2 r2 s1 s2 -> pushed (c1 ++ c2) (r1 ++ r2) s s2.
Proof.
  intros [H1 H2] [H3 H4]. split.
  - now rewrite appendCalls_app, <- H1.
  - now rewrite H4, H2, app_assoc.
Qed.

Lemma pushed_topCheck (c : list string) (r : list Report) (s s' : State) :
  pushed c r s s' -> topCheck (scopeInfo s') = topCheck (scopeInfo s).
Proof. intros [-> _]. apply topCheck_appendCalls. Qed.

(** ** Chains of enclosing nodes *)

Lemma checkable_cons (a : NodeRef) (e : list NodeRef) :
  checkable (a :: e)
  = if opensScope (snd a) then isFunctionNode (snd a) && async (snd a)
    else checkable e.
Proof.
  unfold checkable, nearestScopeOpener. cbn [find].
  now destruct (opensScope (snd a)).
Qed.

Lemma noScopeOpener_snoc (e : list NodeRef) (a : NodeRef) :
  noScopeOpener (e ++ [a]) = noScopeOpener e && negb (opensScope (snd a)).
Proof.
  unfold noScopeOpener. rewrite forallb_app. cbn. now rewrite andb_true_r.
Qed.

Lemma call_not_opener (n : Node) : isCall n = true -> opensScope n = false.
Proof.
  unfold isCall, opensScope, isFunctionNode, isSuspensionBoundary.
  now destruct (type n).
Qed.

Lemma function_not_boundary (n : Node) :
  isFunctionNode n = true -> isSuspensionBoundary n = false.
Proof.
  unfold isFunctionNode, isSuspensionBoundary. now destruct (type n).
Qed.

(** ** Which listeners a node reaches *)

Section RuleFacts.
Context {services : Services}.

Lemma run_app (a b : list Event) (s : State) :
  run (a ++ b) s = run b (run a s).
Proof. apply fold_left_app. Qed.

Lemma dispatch_function (e : list NodeRef) (p : Path) (n : Node) (s : State) :
  isFunctionNode n = true ->
  run (nodeEvents Enter e (p, n)) s = enterFunction (p, n) s
  /\ run (nodeEvents Exit e (p, n)) s = exitFunction (p, n) s.
Proof.
  destruct n as [ty a w nm l cs]. unfold isFunctionNode. cbn [type].
  destruct ty; try discriminate; intros _; split; reflexivity.
Qed.

Lemma dispatch_boundary (e : list NodeRef) (p : Path) (n : Node) :
  isSuspensionBoundary n = true ->
  (forall s, run (nodeEvents Enter e (p, n)) s
             = enterShortCircuitExpression (p, n) s
             /\ run (nodeEvents Exit e (p, n)) s
                = exitShortCircuitExpression (p, n) s)
  \/ (forall s, run (nodeEvents Enter e (p, n)) s
                = enterShortCircuitExpression (p, n)
                    (enterShortCircuitExpression (p, n) s)
                /\ run (nodeEvents Exit e (p, n)) s
                   = exitShortCircuitExpression (p, n)
                       (exitShortCircuitExpression (p, n) s)).
Proof.
  destruct n as [ty a w nm l cs]. unfold isSuspensionBoundary. cbn [type await].
  destruct ty; try discriminate.
  - intros _. unfold nodeEvents, selectors. cbn [snd filter matches type].
    destruct (parentOf e) as [q|]; [|left; intro s; split; reflexivity].
    destruct (type q); try (left; intro s; split; reflexivity).
    destruct (async q); [right|left]; intro s; split; reflexivity.
  - intros _. left. intro s. split; reflexivity.
  - intros ->. left. intro s. split; reflexivity.
Qed.

Lemma dispatch_call (e : list NodeRef) (p : Path) (n : Node) (s : State) :
  isCall n = true ->
  run (nodeEvents Enter e (p, n)) s = onCallExpression (p, n) s
  /\ run (nodeEvents Exit e (p, n)) s = s.
Proof.
  destruct n as [ty a w nm l cs]. unfold isCall. cbn [type].
  destruct ty; try discriminate; intros _; split; reflexivity.
Qed.

Lemma dispatch_other (ph : Phase) (e : list NodeRef) (p : Path) (n : Node) :
  opensScope n = false -> isCall n = false -> nodeEvents ph e (p, n) = [].
Proof.
  destruct n as [ty a w nm l cs].
  unfold opensScope, isFunctionNode, isSuspensionBoundary, isCall.
  cbn [type await]. unfold nodeEvents, selectors.
  destruct ph, ty; try discriminate; cbn; try reflexivity; now intros -> _.
Qed.

(** ** The calls collected for the enclosing scope *)

Lemma walk_silent {A : Type} (n : Node) :
  forall e p, walk (fun _ _ => @nil A) (fun _ _ => []) e p n = [].
Proof.
  induction n as [n IH] using Node_forall_ind; intros e p.
  rewrite walk_eq. cbn [app]. rewrite app_nil_r.
  generalize ((p, n) :: e) as e'. generalize 0 as i.
  induction IH as [|c cs Hc _ IHcs]; intros i e'; cbn [walkForest]; [reflexivity|].
  now rewrite Hc, IHcs.
Qed.

Lemma walkForest_silent {A : Type} (cs : list Node) :
  forall e p i, walkForest (fun _ _ => @nil A) (fun _ _ => []) e p i cs = [].
Proof.
  induction cs as [|c cs IH]; intros e p i; cbn [walkForest]; [reflexivity|].
  now rewrite walk_silent, IH.
Qed.

Lemma directCallsForest_under (a : NodeRef) (p : Path) (i : nat) (cs : list Node) :
  directCallsForest [a] p i cs
  = if opensScope (snd a) then [] else directCallsForest [] p i cs.
Proof.
  unfold directCallsForest. destruct (opensScope (snd a)) eqn:Ha.
  - etransitivity; [|exact (walkForest_silent (A:=NodeRef) cs [] p i)].
    apply (walkForest_ctx_ext _ _ _ _ [a] [] ) with (e := []); [|now intros].
    intros e ref. rewrite noScopeOpener_snoc, Ha. cbn. now rewrite !andb_false_r.
  - apply (walkForest_ctx_ext _ _ _ _ [a] [] ) with (e := []); [|now intros].
    intros e ref. rewrite noScopeOpener_snoc, Ha, app_nil_r. cbn.
    now rewrite andb_true_r.
Qed.

Lemma directCalls_eq (p : Path) (n : Node) :
  directCalls [] p n
  = (if thenableIdentifierCall (p, n) then [(p, n)] else [])
    ++ (if opensScope n then [] else directCallsForest [] p 0 (children n)).
Proof.
  unfold directCalls. rewrite walk_eq. rewrite app_nil_r.
  cbn [noScopeOpener forallb]. rewrite andb_true_r. f_equal.
  exact (directCallsForest_under (p, n) p 0 (children n)).
Qed.

Lemma directCallsForest_cons (p : Path) (i : nat) (c : Node) (cs : list Node) :
  directCallsForest [] p i (c :: cs)
  = directCalls [] (p ++ [i]) c ++ directCallsForest [] p (S i) cs.
Proof. reflexivity. Qed.

Lemma ownCalls_eq (p : Path) (f : Node) :
  ownCalls p f = directCallsForest [] p 0 (children f).
Proof.
  unfold ownCalls, nodesBelow, directCallsForest.
  set (P := fun x : NodeRef * list NodeRef =>
              thenableIdentifierCall (fst x) && noScopeOpener (snd x)).
  transitivity (flat_map (fun x => if P x then [fst x] else [])
                  (walkForest (fun e ref => [(ref, e)]) (fun _ _ => []) [] p 0
                     (children f))).
  - generalize (walkForest (fun e ref => [(ref, e)]) (fun _ _ => []) [] p 0
                  (children f)) as l.
    induction l as [|x l IH]; cbn; [reflexivity|].
    destruct (P x); cbn; now rewrite IH.
  - rewrite walkForest_flat_map.
    apply (walkForest_ctx_ext _ _ _ _ [] []) with (e := []); [|now intros].
    intros e ref. cbn [flat_map]. unfold P. cbn [fst snd].
    now rewrite app_nil_r.
Qed.

(** ** The walk, listener by listener *)

Lemma thenableIdentifierCall_isCall (ref : NodeRef) :
  thenableIdentifierCall ref = true -> isCall (snd ref) = true.
Proof.
  unfold thenableIdentifierCall. intro H.
  apply andb_true_iff in H as [H _]. now apply andb_true_iff in H as [H _].
Qed.

Lemma not_call_not_violation (ref : NodeRef) :
  isCall (snd ref) = false -> thenableIdentifierCall ref = false.
Proof. unfold thenableIdentifierCall. now intros ->. Qed.

Lemma enterReports_not_call (e : list NodeRef) (ref : NodeRef) :
  isCall (snd ref) = false -> enterReports e ref = [].
Proof.
  intro H. unfold enterReports. now rewrite (not_call_not_violation ref H).
Qed.

Lemma leaveReports_not_function (e : list NodeRef) (ref : NodeRef) :
  isFunctionNode (snd ref) = false -> leaveReports e ref = [].
Proof. intro H. unfold leaveReports. now rewrite H. Qed.

(** The [CallExpression] listener on a state whose top record agrees with
    the chain of the node. *)
Lemma onCallExpression_pushed (e : list NodeRef) (ref : NodeRef) (s : State) :
  isCall (snd ref) = true ->
  topCheck (scopeInfo s) = checkable e ->
  pushed (if checkable e
          then map calleeDescriptor
                 (if thenableIdentifierCall ref then [ref] else [])
          else [])
         (enterReports e ref) s (onCallExpression ref s).
Proof.
  intros Hcall Htop.
  unfold onCallExpression, enterReports, thenableIdentifierCall, thenable,
    identifierCallee, calleeDescriptor, callReport, calleeLoc.
  rewrite Hcall. cbn [andb]. unfold pushed, isThenableType.
  destruct s as [[[u h c]|] rs qs]; cbn [scopeInfo topCheck hasAsyncCheck] in *;
    rewrite <- Htop.
  - destruct h; cbn [negb];
      [|cbn; rewrite ?andb_false_r, ?app_nil_r; cbn; now rewrite ?app_nil_r].
    destruct (esTreeNodeToTSNodeMap ref) as [t|];
      [|cbn; rewrite ?andb_false_r, ?app_nil_r; cbn; now rewrite ?app_nil_r].
    destruct (tsutils_isThenableType t (getTypeAtLocation t));
      [|cbn; rewrite ?andb_false_r, ?app_nil_r; cbn; now rewrite ?app_nil_r].
    destruct (callee (snd ref)) as [cl|] eqn:Hcl;
      [|cbn; rewrite ?andb_false_r, ?app_nil_r; cbn; now rewrite ?app_nil_r].
    destruct (isIdentifier cl); cbn; [now rewrite Hcl|now rewrite !app_nil_r].
  - cbn; rewrite ?andb_false_r, ?app_nil_r; cbn; now rewrite ?app_nil_r.
Qed.

Lemma if_map_app {A B : Type} (b : bool) (f : A -> B) (l1 l2 : list A) :
  (if b then map f (l1 ++ l2) else [])
  = (if b then map f l1 else []) ++ (if b then map f l2 else []).
Proof. destruct b; [apply map_app|reflexivity]. Qed.

Lemma if_map_nil {A B : Type} (b : bool) (f : A -> B) :
  (if b then map f [] else []) = [].
Proof. now destruct b. Qed.

Lemma run_traverseForest_of (cs : list Node) :
  Forall (fun c => forall e p s,
              topCheck (scopeInfo s) = checkable e ->
              pushed (if checkable e
                      then map calleeDescriptor (directCalls [] p c) else [])
                     (walk enterReports leaveReports e p c)
                     s (run (traverse e p c) s)) cs ->
  forall e p i s,
    topCheck (scopeInfo s) = checkable e ->
    pushed (if checkable e
            then map calleeDescriptor (directCallsForest [] p i cs) else [])
           (walkForest enterReports leaveReports e p i cs)
           s (run (walkForest (nodeEvents Enter) (nodeEvents Exit) e p i cs) s).
Proof.
  induction 1 as [|c cs Hc _ IH]; intros e p i s Htop.
  - cbn. destruct (checkable e); apply pushed_refl.
  - cbn [walkForest]. rewrite directCallsForest_cons, if_map_app, run_app.
    eapply pushed_trans.
    + apply Hc, Htop.
    + apply IH. rewrite <- Htop. eapply pushed_topCheck. apply Hc, Htop.
Qed.

(** Entering a function, walking its children and leaving it. *)
Lemma function_pushed (e : list NodeRef) (p : Path) (n : Node) (s s2 : State)
  (reps : list Report) :
  isFunctionNode n = true ->
  pushed (if async n then map calleeDescriptor (ownCalls p n) else []) reps
         (enterFunction (p, n) s) s2 ->
  pushed [] (reps ++ leaveReports e (p, n)) s (exitFunction (p, n) s2).
Proof.
  intros Hf [Hsc Hrs]. unfold leaveReports. cbn [fst snd]. rewrite Hf. cbn [andb].
  unfold exitFunction. cbn [snd]. rewrite Hsc. cbn [enterFunction setScope scopeInfo
    appendCalls upper hasAsyncCheck noAwaitCalls app snd].
  unfold enterFunction in Hrs. cbn [setScope reports] in Hrs.
  destruct (async n); cbn [andb].
  - rewrite length_map.
    destruct (0 <? List.length (ownCalls p n)); split; cbn;
      rewrite ?appendCalls_nil, ?Hrs, ?app_nil_r, <- ?app_assoc; reflexivity.
  - split; cbn; rewrite ?appendCalls_nil, ?Hrs, ?app_nil_r; reflexivity.
Qed.

(** Entering a suspension boundary, walking its children and leaving it. *)
Lemma boundary_pushed (ref : NodeRef) (s s2 : State) (reps : list Report) :
  pushed [] reps (enterShortCircuitExpression ref s) s2 ->
  pushed [] reps s (exitShortCircuitExpression ref s2).
Proof.
  intros [Hsc Hrs]. rewrite appendCalls_nil in Hsc.
  unfold exitShortCircuitExpression. rewrite Hsc.
  split; cbn; [now rewrite appendCalls_nil|exact Hrs].
Qed.

(** The walk over a subtree pushes the subtree's direct calls on the record
    that is on top when it starts, reports what [enterReports] and
    [leaveReports] say, and leaves the rest of the chain alone. *)
Lemma run_traverse (n : Node) :
  forall e p s,
    topCheck (scopeInfo s) = checkable e ->
    pushed (if checkable e then map calleeDescriptor (directCalls [] p n) else [])
           (walk enterReports leaveReports e p n)
           s (run (traverse e p n) s).
Proof.
  induction n as [n IH] using Node_forall_ind; intros e p s Htop.
  pose proof (run_traverseForest_of _ IH ((p, n) :: e) p 0) as Hforest.
  rewrite checkable_cons in Hforest. cbn [snd] in Hforest.
  unfold traverse. rewrite !walk_eq, !run_app, directCalls_eq.
  destruct (isFunctionNode n) eqn:Hf; [|destruct (isSuspensionBoundary n) eqn:Hb].
  - (* a function *)
    assert (Ho : opensScope n = true) by (unfold opensScope; now rewrite Hf).
    assert (Hc : isCall n = false).
    { destruct (isCall n) eqn:E; [|reflexivity].
      apply call_not_opener in E. congruence. }
    rewrite Ho in *. cbn [andb] in Hforest.
    rewrite (not_call_not_violation (p, n) Hc). cbn [app].
    rewrite (enterReports_not_call e (p, n) Hc). cbn [app].
    destruct (dispatch_function e p n s Hf) as [-> _].
    match goal with |- context [run (nodeEvents Exit e (p, n)) ?st] =>
      destruct (dispatch_function e p n st Hf) as [_ ->] end.
    rewrite if_map_nil.
    apply function_pushed; [exact Hf|].
    rewrite ownCalls_eq. apply Hforest. reflexivity.
  - (* a suspension boundary *)
    assert (Ho : opensScope n = true) by (unfold opensScope; now rewrite Hb, orb_true_r).
    assert (Hc : isCall n = false).
    { destruct (isCall n) eqn:E; [|reflexivity].
      apply call_not_opener in E. congruence. }
    rewrite Ho in *. cbn [andb] in Hforest.
    rewrite (not_call_not_violation (p, n) Hc). cbn [app].
    rewrite (enterReports_not_call e (p, n) Hc).
    rewrite (leaveReports_not_function e (p, n) Hf). cbn [app]. rewrite app_nil_r.
    rewrite if_map_nil.
    destruct (dispatch_boundary e p n Hb) as [H|H].
    + destruct (H s) as [-> _].
      match goal with |- context [run (nodeEvents Exit e (p, n)) ?st] =>
        destruct (H st) as [_ ->] end.
      apply boundary_pushed. apply Hforest. reflexivity.
    + destruct (H s) as [-> _].
      match goal with |- context [run (nodeEvents Exit e (p, n)) ?st] =>
        destruct (H st) as [_ ->] end.
      apply boundary_pushed.
      apply (boundary_pushed (p, n) (enterShortCircuitExpression (p, n) s)).
      apply Hforest. reflexivity.
  - (* neither *)
    assert (Ho : opensScope n = false) by (unfold opensScope; now rewrite Hf, Hb).
    rewrite Ho in *.
    rewrite (leaveReports_not_function e (p, n) Hf).
    rewrite app_nil_r, if_map_app.
    destruct (isCall n) eqn:Hc.
    + destruct (dispatch_call e p n s Hc) as [-> _].
      match goal with |- context [run (nodeEvents Exit e (p, n)) ?st] =>
        destruct (dispatch_call e p n st Hc) as [_ ->] end.
      pose proof (onCallExpression_pushed e (p, n) s Hc Htop) as H1.
      eapply pushed_trans; [exact H1|].
      apply Hforest. rewrite <- Htop. exact (pushed_topCheck _ _ _ _ H1).
    + rewrite !(dispatch_other _ e p n Ho Hc). cbn [run fold_left].
      rewrite (enterReports_not_call e (p, n) Hc).
      rewrite (not_call_not_violation (p, n) Hc), if_map_nil.
      cbn [app]. apply Hforest. exact Htop.
Qed.

(** The reports of a whole program. *)
Lemma analyse_reports (root : Node) :
  reports (analyse root) = walk enterReports leaveReports [] [] root.
Proof.
  destruct (run_traverse root [] [] initialState eq_refl) as [_ H]. exact H.
Qed.

Lemma analyse_scopeInfo (root : Node) : scopeInfo (analyse root) = None.
Proof.
  destruct (run_traverse root [] [] initialState eq_refl) as [H _]. exact H.
Qed.

(** ** Diagnostics node by node *)

Lemma enterReports_here (e : list NodeRef) (ref : NodeRef) (r : Report) :
  In r (enterReports e ref) -> fst (node r) = fst ref.
Proof.
  unfold enterReports.
  destruct (thenableIdentifierCall ref && checkable e); [|easy].
  now intros [<-|[]].
Qed.

Lemma leaveReports_here (e : list NodeRef) (ref : NodeRef) (r : Report) :
  In r (leaveReports e ref) -> fst (node r) = fst ref.
Proof.
  unfold leaveReports.
  destruct (isFunctionNode (snd ref) && async (snd ref)
            && (0 <? List.length (ownCalls (fst ref) (snd ref)))); [|easy].
  now intros [<-|[]].
Qed.

(** The diagnostics on a node of the program are those its own listener
    calls report. *)
Lemma reportsAt_node (root : Node) (ref : NodeRef) (encl : list NodeRef) :
  In (ref, encl) (nodesOf root) ->
  reportsAt (fst ref) (reports (analyse root))
  = enterReports encl ref ++ leaveReports encl ref.
Proof.
  intro Hin. rewrite analyse_reports. unfold reportsAt.
  exact (walk_at (fun r => fst (node r)) enterReports leaveReports
           enterReports_here leaveReports_here root [] [] ref encl Hin).
Qed.

Lemma reportsAt_call (root : Node) (c : NodeRef) (encl : list NodeRef) :
  In (c, encl) (nodesOf root) ->
  isCall (snd c) = true ->
  reportsAt (fst c) (reports (analyse root))
  = if thenableIdentifierCall c && checkable encl then [callReport c] else [].
Proof.
  intros Hin Hc. rewrite (reportsAt_node root c encl Hin).
  rewrite leaveReports_not_function, app_nil_r; [reflexivity|].
  pose proof (call_not_opener _ Hc) as Ho. unfold opensScope in Ho.
  now apply orb_false_iff in Ho as [Ho _].
Qed.

Lemma reportsAt_function (root : Node) (f : NodeRef) (encl : list NodeRef) :
  In (f, encl) (nodesOf root) ->
  isFunctionNode (snd f) = true ->
  reportsAt (fst f) (reports (analyse root))
  = if async (snd f) && (0 <? List.length (ownCalls (fst f) (snd f)))
    then [summaryReport f (map calleeDescriptor (ownCalls (fst f) (snd f)))]
    else [].
Proof.
  intros Hin Hf. rewrite (reportsAt_node root f encl Hin).
  rewrite enterReports_not_call.
  - unfold leaveReports. now rewrite Hf.
  - destruct (isCall (snd f)) eqn:E; [|reflexivity].
    apply call_not_opener in E. unfold opensScope in E. now rewrite Hf in E.
Qed.

Lemma reportsAt_other (root : Node) (ref : NodeRef) (encl : list NodeRef) :
  In (ref, encl) (nodesOf root) ->
  isCall (snd ref) = false ->
  isFunctionNode (snd ref) = false ->
  reportsAt (fst ref) (reports (analyse root)) = [].
Proof.
  intros Hin Hc Hf. rewrite (reportsAt_node root ref encl Hin).
  now rewrite enterReports_not_call, leaveReports_not_function.
Qed.

(** ** Nodes below a node *)

Lemma map_as_flat_map {A B : Type} (f : A -> B) (l : list A) :
  map f l = flat_map (fun x => [f x]) l.
Proof. induction l as [|a l IH]; cbn; [reflexivity|now rewrite IH]. Qed.

Lemma preorderForest_shift (ctx : list NodeRef) (cs : list Node) :
  forall e p i,
    walkForest (fun e' ref => [(ref, e')]) (fun _ _ => []) (e ++ ctx) p i cs
    = map (fun x => (fst x, snd x ++ ctx))
          (walkForest (fun e' ref => [(ref, e')]) (fun _ _ => []) e p i cs).
Proof.
  intros e p i.
  rewrite map_as_flat_map, walkForest_flat_map.
  rewrite <- (app_nil_r e) at 2.
  apply (walkForest_ctx_ext _ _ _ _ ctx []); [|now intros].
  intros e' ref. cbn. now rewrite app_nil_r.
Qed.

Lemma preorder_eq (e : list NodeRef) (p : Path) (n : Node) :
  preorder e p n
  = ((p, n), e)
      :: walkForest (fun e' ref => [(ref, e')]) (fun _ _ => []) ((p, n) :: e) p 0
           (children n).
Proof. unfold preorder. rewrite walk_eq. cbn [app]. now rewrite app_nil_r. Qed.

(** The nodes below a node of the subtree are nodes of the subtree. *)
Lemma preorder_below (m : NodeRef) (em : list NodeRef)
  (x : NodeRef * list NodeRef) (n : Node) :
  forall e p,
    In (m, em) (preorder e p n) ->
    In x (walkForest (fun e' ref => [(ref, e')]) (fun _ _ => []) (m :: em)
            (fst m) 0 (children (snd m))) ->
    In x (preorder e p n).
Proof.
  induction n as [n IH] using Node_forall_ind; intros e p Hm Hx.
  rewrite preorder_eq in *. destruct Hm as [Hm|Hm].
  - inversion Hm; subst m em. right. exact Hx.
  - right. revert Hm. generalize ((p, n) :: e) as e'. generalize 0 as i.
    induction IH as [|c cs Hc _ IHcs]; intros i e' Hm; cbn [walkForest] in *; [easy|].
    apply in_or_app. apply in_app_or in Hm as [Hm|Hm].
    + left. now apply Hc.
    + right. now apply IHcs.
Qed.

Lemma nodesBelow_in (root : Node) (f : NodeRef) (enclf : list NodeRef)
  (c : NodeRef) (erel : list NodeRef) :
  In (f, enclf) (nodesOf root) ->
  In (c, erel) (nodesBelow (fst f) (snd f)) ->
  In (c, erel ++ f :: enclf) (nodesOf root).
Proof.
  intros Hf Hc. apply (preorder_below f enclf _ root [] [] Hf).
  pose proof (preorderForest_shift (f :: enclf) (children (snd f)) []
                (fst f) 0) as H.
  cbn [app] in H. rewrite H.
  exact (in_map (fun x => (fst x, snd x ++ f :: enclf)) _ _ Hc).
Qed.

(** A position holds one node. *)
Lemma nodesOf_unique (root : Node) (x y : NodeRef) (ex ey : list NodeRef) :
  In (x, ex) (nodesOf root) ->
  In (y, ey) (nodesOf root) ->
  fst x = fst y ->
  x = y /\ ex = ey.
Proof.
  intros Hx Hy Hxy.
  pose (enter := fun (e : list NodeRef) (ref : NodeRef) => [(ref, e)]).
  pose (leave := fun (_ : list NodeRef) (_ : NodeRef) =>
                   @nil (NodeRef * list NodeRef)).
  assert (Hen : forall e ref z, In z (enter e ref) -> fst (fst z) = fst ref)
    by (intros e ref z [<-|[]]; reflexivity).
  assert (Hle : forall e ref z, In z (leave e ref) -> fst (fst z) = fst ref)
    by (intros e ref z []).
  pose proof (walk_at (fun z => fst (fst z)) enter leave Hen Hle
                root [] [] x ex Hx) as H1.
  pose proof (walk_at (fun z => fst (fst z)) enter leave Hen Hle
                root [] [] y ey Hy) as H2.
  rewrite Hxy in H1.
  assert (H : enter ex x ++ leave ex x = enter ey y ++ leave ey y)
    by (etransitivity; [symmetry; exact H1|exact H2]).
  cbn in H. now inversion H.
Qed.

Lemma ownCalls_In (p : Path) (f : Node) (c : NodeRef) :
  In c (ownCalls p f) <->
  exists erel,
    In (c, erel) (nodesBelow p f)
    /\ thenableIdentifierCall c = true /\ noScopeOpener erel = true.
Proof.
  unfold ownCalls. rewrite in_map_iff. split.
  - intros [[c' erel] [<- H]]. apply filter_In in H as [Hin H].
    apply andb_true_iff in H as [H1 H2]. now exists erel.
  - intros (erel & Hin & H1 & H2). exists (c, erel). split; [reflexivity|].
    apply filter_In. split; [exact Hin|]. cbn [fst snd]. now rewrite H1, H2.
Qed.

Lemma checkable_app (e1 e2 : list NodeRef) :
  noScopeOpener e1 = true -> checkable (e1 ++ e2) = checkable e2.
Proof.
  induction e1 as [|a e1 IH]; cbn [app noScopeOpener forallb]; [reflexivity|].
  intro H. apply andb_true_iff in H as [Ha H].
  rewrite checkable_cons. apply negb_true_iff in Ha. rewrite Ha. now apply IH.
Qed.

Lemma noScopeOpener_app (e1 e2 : list NodeRef) :
  noScopeOpener (e1 ++ e2) = noScopeOpener e1 && noScopeOpener e2.
Proof. apply forallb_app. Qed.

(** Inside a function that is not asynchronous nothing is checkable,
    whatever lies between the function and the node. *)
Lemma nearestFunction_sync (encl : list NodeRef) (fn : NodeRef) :
  nearestFunction encl = Some fn ->
  async (snd fn) = false ->
  checkable encl = false.
Proof.
  induction encl as [|a e IH]; [discriminate|].
  unfold nearestFunction. cbn [find]. rewrite checkable_cons.
  destruct (isFunctionNode (snd a)) eqn:Hf.
  - intros [= <-] ->. unfold opensScope. rewrite Hf. cbn. reflexivity.
  - intros Hfind Has. destruct (opensScope (snd a)); [reflexivity|].
    now apply IH.
Qed.

Lemma nearestScopeOpener_boundary (encl : list NodeRef) (b : NodeRef) :
  nearestScopeOpener encl = Some b ->
  isFunctionNode (snd b) = false ->
  checkable encl = false.
Proof. unfold checkable. now intros -> ->. Qed.

Lemma nearestScopeOpener_async (encl : list NodeRef) (f : NodeRef) :
  nearestScopeOpener encl = Some f ->
  isFunctionNode (snd f) = true ->
  async (snd f) = true ->
  checkable encl = true.
Proof. unfold checkable. now intros -> -> ->. Qed.

(** A node under a chain that is not checkable is no call of any
    asynchronous function of the program. *)
Lemma not_checkable_not_listed (root : Node) (c f : NodeRef)
  (encl enclf : list NodeRef) :
  In (c, encl) (nodesOf root) ->
  checkable encl = false ->
  In (f, enclf) (nodesOf root) ->
  isFunctionNode (snd f) = true ->
  async (snd f) = true ->
  ~ In c (ownCalls (fst f) (snd f)).
Proof.
  intros Hc Hchk Hf Hfn Has Hown.
  apply ownCalls_In in Hown as (erel & Hbelow & _ & Hno).
  pose proof (nodesBelow_in root f enclf c erel Hf Hbelow) as Hc'.
  destruct (nodesOf_unique root c c _ _ Hc Hc' eq_refl) as [_ ->].
  rewrite (checkable_app _ _ Hno), checkable_cons in Hchk.
  unfold opensScope in Hchk. rewrite Hfn, Has in Hchk. discriminate.
Qed.

(* ================================================================= *)
(** * The claims *)

(** C1.  In an asynchronous function with at least one call of its own that
    returns a thenable through a plain identifier callee (a call below the
    function with no function, await, return or for-await between the two),
    every such call gets exactly one diagnostic, [asyncCallNoAwait] at the
    callee's location, and the function gets exactly one,
    [noAwaitBeforeReturnPromise] at its head, listing the descriptors of all
    these calls in document order. *)
Theorem unawaited_calls_reported_with_summary
  (root : Node) (f : NodeRef) (enclf : list NodeRef) :
  In (f, enclf) (nodesOf root) ->
  isFunctionNode (snd f) = true ->
  async (snd f) = true ->
  ownCalls (fst f) (snd f) <> [] ->
  (forall c, In c (ownCalls (fst f) (snd f)) ->
             exists cl,
               callee (snd c) = Some cl /\ isIdentifier cl = true
               /\ reportsAt (fst c) (reports (analyse root))
                  = [mkReport c (loc cl) asyncCallNoAwait None])
  /\ reportsAt (fst f) (reports (analyse root))
     = [mkReport f (getFunctionHeadLoc f) noAwaitBeforeReturnPromise
                 (Some (map calleeDescriptor (ownCalls (fst f) (snd f))))].
Proof.
  intros Hin Hf Has Hne. split.
  - intros c Hc. apply ownCalls_In in Hc as (erel & Hbelow & Hv & Hno).
    pose proof (nodesBelow_in root f enclf c erel Hin Hbelow) as Hroot.
    rewrite (reportsAt_call root c _ Hroot (thenableIdentifierCall_isCall c Hv)).
    rewrite Hv, (checkable_app _ _ Hno), checkable_cons.
    unfold opensScope. rewrite Hf, Has. cbn [orb andb].
    unfold thenableIdentifierCall, identifierCallee in Hv.
    apply andb_true_iff in Hv as [_ Hv].
    unfold callReport, calleeLoc.
    destruct (callee (snd c)) as [cl|]; [|discriminate].
    now exists cl.
  - rewrite (reportsAt_function root f enclf Hin Hf), Has.
    destruct (ownCalls (fst f) (snd f)); [congruence|reflexivity].
Qed.

(** C2.  The [CallExpression] listener returns at once, asking the checker
    nothing and reporting nothing, when there is no scope record or the top
    record's check is off; and a call whose nearest enclosing function is not
    asynchronous gets no diagnostic, whatever the checker says about it:
    none is reported on it and no asynchronous function has it among the
    calls its summary lists. *)
Theorem call_outside_checkable_scope_is_skipped
  (nd : NodeRef) (s : State) (root : Node) (c fn : NodeRef)
  (encl : list NodeRef) :
  ((scopeInfo s = None
    \/ exists sc, scopeInfo s = Some sc /\ hasAsyncCheck sc = false) ->
   onCallExpression nd s = s
   /\ typeQueries (onCallExpression nd s) = typeQueries s
   /\ reports (onCallExpression nd s) = reports s)
  /\ (In (c, encl) (nodesOf root) ->
      isCall (snd c) = true ->
      nearestFunction encl = Some fn ->
      async (snd fn) = false ->
      reportsAt (fst c) (reports (analyse root)) = []
      /\ forall f enclf,
           In (f, enclf) (nodesOf root) ->
           isFunctionNode (snd f) = true ->
           async (snd f) = true ->
           ~ In c (ownCalls (fst f) (snd f))).
Proof.
  split.
  - intro Hs.
    assert (H : onCallExpression nd s = s).
    { unfold onCallExpression. destruct Hs as [->|(sc & -> & ->)]; reflexivity. }
    now rewrite H.
  - intros Hin Hc Hfn Has.
    pose proof (nearestFunction_sync encl fn Hfn Has) as Hchk. split.
    + rewrite (reportsAt_call root c encl Hin Hc).
      now rewrite Hchk, andb_false_r.
    + intros f enclf. now apply (not_checkable_not_listed root c f encl enclf).
Qed.

(** C3.  A call whose callee is not a plain identifier is never recorded and
    never reported, also when the checker says its type is thenable: the
    listener leaves the scope chain and the reports alone, no function counts
    the call among its calls, and no diagnostic of a program sits on it. *)
Theorem non_identifier_callee_never_reported
  (nd : NodeRef) (s : State) (root : Node) (encl : list NodeRef) :
  identifierCallee (snd nd) = false ->
  scopeInfo (onCallExpression nd s) = scopeInfo s
  /\ reports (onCallExpression nd s) = reports s
  /\ (forall p f, ~ In nd (ownCalls p f))
  /\ (In (nd, encl) (nodesOf root) ->
      isCall (snd nd) = true ->
      reportsAt (fst nd) (reports (analyse root)) = []).
Proof.
  intro Hid. unfold identifierCallee in Hid.
  assert (H : scopeInfo (onCallExpression nd s) = scopeInfo s
              /\ reports (onCallExpression nd s) = reports s).
  { unfold onCallExpression, isThenableType.
    destruct s as [[sc|] rs qs]; cbn [scopeInfo reports]; [|easy].
    destruct (hasAsyncCheck sc); cbn [negb]; [|easy].
    destruct (esTreeNodeToTSNodeMap nd) as [t|]; [|easy].
    destruct (tsutils_isThenableType t (getTypeAtLocation t)); [|easy].
    destruct (callee (snd nd)) as [cl|]; [|easy].
    now rewrite Hid. }
  destruct H as [H1 H2]. split; [exact H1|]. split; [exact H2|]. split.
  { intros p f Hown. apply ownCalls_In in Hown as (_ & _ & Hv & _).
    unfold thenableIdentifierCall, identifierCallee in Hv.
    rewrite Hid, andb_false_r in Hv. discriminate. }
  intros Hin Hc. rewrite (reportsAt_call root nd encl Hin Hc).
  unfold thenableIdentifierCall, identifierCallee. rewrite Hid.
  now rewrite andb_false_r.
Qed.

(** C4.  [enterShortCircuitExpression] pushes a record whose check is off and
    whose list is empty, whatever the record below says; every await, return
    and for-await node is entered that way; and a call whose nearest
    enclosing scope-opening node is an await expression or a return statement
    gets no diagnostic: none is reported on it and no asynchronous function
    has it among the calls its summary lists. *)
Theorem suspension_boundary_switches_check_off
  (nd : NodeRef) (s : State) (e : list NodeRef) (p : Path) (n : Node)
  (root : Node) (c b : NodeRef) (encl : list NodeRef) :
  (scopeInfo (enterShortCircuitExpression nd s)
   = Some (mkScopeInfo (scopeInfo s) false [])
   /\ reports (enterShortCircuitExpression nd s) = reports s)
  /\ (isSuspensionBoundary n = true ->
      exists u, scopeInfo (run (nodeEvents Enter e (p, n)) s)
                = Some (mkScopeInfo u false []))
  /\ (In (c, encl) (nodesOf root) ->
      isCall (snd c) = true ->
      nearestScopeOpener encl = Some b ->
      type (snd b) = AwaitExpression \/ type (snd b) = ReturnStatement ->
      reportsAt (fst c) (reports (analyse root)) = []
      /\ forall f enclf,
           In (f, enclf) (nodesOf root) ->
           isFunctionNode (snd f) = true ->
           async (snd f) = true ->
           ~ In c (ownCalls (fst f) (snd f))).
Proof.
  split; [split; reflexivity|]. split.
  - intro Hb. destruct (dispatch_boundary e p n Hb) as [H|H];
      destruct (H s) as [-> _]; eexists; reflexivity.
  - intros Hin Hc Hb Hty.
    assert (Hchk : checkable encl = false).
    { apply (nearestScopeOpener_boundary encl b Hb).
      unfold isFunctionNode. now destruct Hty as [-> | ->]. }
    split.
    + rewrite (reportsAt_call root c encl Hin Hc).
      now rewrite Hchk, andb_false_r.
    + intros f enclf. now apply (not_checkable_not_listed root c f encl enclf).
Qed.

(** C5.  No listener touches a record below the top: each one pushes a
    record, pops one, or extends the top record's list.  So a call that
    belongs to an asynchronous function nested in another function is listed
    in the inner function's summary and is not among the calls that the outer
    function's summary lists. *)
Theorem calls_attributed_to_innermost_function
  (ev : Event) (s : State) (root : Node)
  (fo fi c : NodeRef) (eo ei erel : list NodeRef) :
  ((exists r, scopeStack (emit ev s) = r :: scopeStack s)
   \/ scopeStack (emit ev s) = tl (scopeStack s)
   \/ (exists l, scopeInfo (emit ev s) = appendCalls l (scopeInfo s)))
  /\ (In (fo, eo) (nodesOf root) ->
      isFunctionNode (snd fo) = true ->
      In (fi, ei) (nodesBelow (fst fo) (snd fo)) ->
      isFunctionNode (snd fi) = true ->
      async (snd fi) = true ->
      In (c, erel) (nodesBelow (fst fi) (snd fi)) ->
      thenableIdentifierCall c = true ->
      noScopeOpener erel = true ->
      In c (ownCalls (fst fi) (snd fi))
      /\ reportsAt (fst fi) (reports (analyse root))
         = [summaryReport fi (map calleeDescriptor (ownCalls (fst fi) (snd fi)))]
      /\ ~ In c (ownCalls (fst fo) (snd fo))
      /\ reportsAt (fst fo) (reports (analyse root))
         = if async (snd fo) && (0 <? List.length (ownCalls (fst fo) (snd fo)))
           then [summaryReport fo
                   (map calleeDescriptor (ownCalls (fst fo) (snd fo)))]
           else []).
Proof.
  split.
  - destruct ev as [[ph sel] ref]. unfold emit, scopeStack.
    destruct s as [[[u h l]|] rs qs];
      destruct ph, sel; cbn [listener];
      unfold enterFunction, exitFunction, enterShortCircuitExpression,
        exitShortCircuitExpression, onCallExpression, isThenableType,
        addNoAwaitCalls, context_report, setScope;
      cbn [scopeInfo reports typeQueries upper hasAsyncCheck noAwaitCalls
           chainFrom tl];
      try (left; eexists; reflexivity);
      try (right; left; destruct (async (snd ref) && _); reflexivity);
      try (right; left; reflexivity);
      try (right; right; exists []; cbn; now rewrite ?app_nil_r).
    destruct h; cbn [negb];
      [|right; right; exists []; cbn; now rewrite app_nil_r].
    destruct (esTreeNodeToTSNodeMap ref) as [t|];
      [|right; right; exists []; cbn; now rewrite app_nil_r].
    destruct (tsutils_isThenableType t (getTypeAtLocation t));
      [|right; right; exists []; cbn; now rewrite app_nil_r].
    destruct (callee (snd ref)) as [cl|];
      [|right; right; exists []; cbn; now rewrite app_nil_r].
    destruct (isIdentifier cl); right; right;
      [exists [descriptor cl]|exists []]; cbn; now rewrite ?app_nil_r.
  - intros Hfo Hfof Hfi Hfif Hfia Hc Hv Hno.
    pose proof (nodesBelow_in root fo eo fi ei Hfo Hfi) as Hfi_root.
    pose proof (nodesBelow_in root fi _ c erel Hfi_root Hc) as Hc_root.
    assert (Hown : In c (ownCalls (fst fi) (snd fi)))
      by (apply ownCalls_In; now exists erel).
    split; [exact Hown|]. split; [|split].
    + rewrite (reportsAt_function root fi _ Hfi_root Hfif), Hfia.
      destruct (ownCalls (fst fi) (snd fi)); [destruct Hown|reflexivity].
    + intro Hout. apply ownCalls_In in Hout as (erel' & Hbelow & _ & Hno').
      pose proof (nodesBelow_in root fo eo c erel' Hfo Hbelow) as Hc_root'.
      destruct (nodesOf_unique root c c _ _ Hc_root Hc_root' eq_refl) as [_ E].
      change (erel ++ fi :: ei ++ fo :: eo)
        with (erel ++ (fi :: ei) ++ fo :: eo) in E.
      rewrite app_assoc in E. apply app_inv_tail in E. subst erel'.
      rewrite noScopeOpener_app in Hno'. cbn in Hno'.
      unfold opensScope in Hno'. rewrite Hfif in Hno'. cbn in Hno'.
      now rewrite andb_false_r in Hno'.
    + exact (reportsAt_function root fo eo Hfo Hfof).
Qed.

(** C6.  With no scope record, [exitFunction] and
    [exitShortCircuitExpression] return without reporting and leave the state
    as it is; so does every exit listener. *)
Theorem exit_without_scope_is_noop (nd : NodeRef) (s : State) (sel : Selector) :
  scopeInfo s = None ->
  exitFunction nd s = s
  /\ exitShortCircuitExpression nd s = s
  /\ emit (Exit, sel, nd) s = s.
Proof.
  intro H. unfold emit, exitFunction, exitShortCircuitExpression.
  destruct sel; cbn [listener]; unfold exitFunction, exitShortCircuitExpression;
    now rewrite H.
Qed.

(** C7.  Leaving a suspension boundary reports nothing.  Whatever a listener
    call adds to the reports, a [noAwaitBeforeReturnPromise] among it comes
    from the exit of a function; the exit keys of await, return, for-await
    and bare-await-arrow add nothing, and no diagnostic of a program sits on
    a suspension-boundary node. *)
Theorem boundary_exit_reports_nothing
  (nd : NodeRef) (s : State) (ph : Phase) (sel : Selector) (ref : NodeRef)
  (root : Node) (b : NodeRef) (encl : list NodeRef) :
  reports (exitShortCircuitExpression nd s) = reports s
  /\ (exists new,
        reports (emit (ph, sel, ref) s) = reports s ++ new
        /\ forall r, In r new ->
                     messageId r = noAwaitBeforeReturnPromise ->
                     ph = Exit /\ functionSelector sel = true)
  /\ (shortCircuitSelector sel = true ->
      reports (emit (Exit, sel, ref) s) = reports s)
  /\ (In (b, encl) (nodesOf root) ->
      isSuspensionBoundary (snd b) = true ->
      reportsAt (fst b) (reports (analyse root)) = []).
Proof.
  assert (Hexit : forall x, reports (exitShortCircuitExpression x s) = reports s).
  { intro x. unfold exitShortCircuitExpression. now destruct (scopeInfo s). }
  split; [apply Hexit|]. split; [|split].
  - unfold emit.
    destruct ph, sel; cbn [listener functionSelector];
      try (exists []; split; [now rewrite ?Hexit, app_nil_r|intros r []]).
    + (* CallExpression *)
      unfold onCallExpression, isThenableType, addNoAwaitCalls.
      destruct (scopeInfo s) as [sc|] eqn:Hsc;
        [|exists []; split; [now rewrite app_nil_r|intros r []]].
      destruct (hasAsyncCheck sc); cbn [negb];
        [|exists []; split; [now rewrite app_nil_r|intros r []]].
      destruct (esTreeNodeToTSNodeMap ref) as [t|];
        [|exists []; split; [now rewrite app_nil_r|intros r []]].
      destruct (tsutils_isThenableType t (getTypeAtLocation t));
        [|exists []; split; [cbn; now rewrite app_nil_r|intros r []]].
      destruct (callee (snd ref)) as [cl|];
        [|exists []; split; [cbn; now rewrite app_nil_r|intros r []]].
      destruct (isIdentifier cl);
        [|exists []; split; [cbn; now rewrite app_nil_r|intros r []]].
      cbn. eexists. split; [reflexivity|].
      intros r [<-|[]]. discriminate.
    + unfold exitFunction. destruct (scopeInfo s) as [sc|];
        [|exists []; split; [now rewrite app_nil_r|intros r []]].
      destruct (async (snd ref) && (0 <? List.length (noAwaitCalls sc)));
        [|exists []; split; [now rewrite app_nil_r|intros r []]].
      eexists. split; [reflexivity|]. now intros r _ _.
    + unfold exitFunction. destruct (scopeInfo s) as [sc|];
        [|exists []; split; [now rewrite app_nil_r|intros r []]].
      destruct (async (snd ref) && (0 <? List.length (noAwaitCalls sc)));
        [|exists []; split; [now rewrite app_nil_r|intros r []]].
      eexists. split; [reflexivity|]. now intros r _ _.
    + unfold exitFunction. destruct (scopeInfo s) as [sc|];
        [|exists []; split; [now rewrite app_nil_r|intros r []]].
      destruct (async (snd ref) && (0 <? List.length (noAwaitCalls sc)));
        [|exists []; split; [now rewrite app_nil_r|intros r []]].
      eexists. split; [reflexivity|]. now intros r _ _.
  - unfold emit. destruct sel; cbn [shortCircuitSelector listener];
      try discriminate; intros _; apply Hexit.
  - intros Hin Hb. apply (reportsAt_other root b encl Hin).
    + destruct (isCall (snd b)) eqn:E; [|reflexivity].
      apply call_not_opener in E. unfold opensScope in E.
      rewrite Hb, orb_true_r in E. discriminate.
    + destruct (isFunctionNode (snd b)) eqn:E; [|reflexivity].
      apply function_not_boundary in E. congruence.
Qed.

(** ** The invariant of the scope chain *)

Lemma suppressedScopesEmpty_emit (ev : Event) (s : State) :
  suppressedScopesEmpty s = true -> suppressedScopesEmpty (emit ev s) = true.
Proof.
  destruct ev as [[ph sel] ref]. unfold emit, suppressedScopesEmpty, scopeStack.
  destruct s as [[[u h l]|] rs qs];
    destruct ph, sel; cbn [listener];
    unfold enterFunction, exitFunction, enterShortCircuitExpression,
      exitShortCircuitExpression, onCallExpression, isThenableType,
      addNoAwaitCalls, context_report, setScope;
    cbn [scopeInfo reports typeQueries upper hasAsyncCheck noAwaitCalls
         chainFrom forallb List.length Nat.eqb];
    rewrite ?orb_true_r, ?andb_true_l;
    try (intro H; exact H);
    try (intro H; now apply andb_true_iff in H as [_ H]);
    try (intro H; apply andb_true_iff in H as [_ H];
         destruct (async (snd ref) && _); exact H).
  intro H. destruct h; cbn [negb];
    [|cbn [scopeInfo chainFrom forallb]; exact H].
  destruct (esTreeNodeToTSNodeMap ref) as [t|]; [|exact H].
  destruct (tsutils_isThenableType t (getTypeAtLocation t)); [|exact H].
  destruct (callee (snd ref)) as [cl|]; [|exact H].
  destruct (isIdentifier cl); [|exact H].
  cbn [scopeInfo chainFrom forallb hasAsyncCheck orb] in *. exact H.
Qed.

Lemma suppressedScopesEmpty_run (evs : list Event) :
  forall s, suppressedScopesEmpty s = true ->
            suppressedScopesEmpty (run evs s) = true.
Proof.
  induction evs as [|ev evs IH]; intros s H; [exact H|].
  cbn [run fold_left]. apply IH. now apply suppressedScopesEmpty_emit.
Qed.

(** C9.  From a state in which every record with the check off has an empty
    list, every sequence of listener calls leads to such a state; there a
    record with a non-empty list has its check on.  A listener call leaves
    the flags of the chain alone, pops the top one, or pushes one, and the
    flag pushed is on only when the key is a function's and the node is
    asynchronous. *)
Theorem suppressed_scopes_stay_empty
  (evs : list Event) (ev : Event) (s : State) :
  suppressedScopesEmpty s = true ->
  suppressedScopesEmpty (run evs s) = true
  /\ (forall r, In r (scopeStack (run evs s)) ->
                noAwaitCalls r <> [] -> hasAsyncCheck r = true)
  /\ (let before := map hasAsyncCheck (scopeStack (run evs s)) in
      let after := map hasAsyncCheck (scopeStack (emit ev (run evs s))) in
      after = before
      \/ after = tl before
      \/ (fst (fst ev) = Enter
          /\ after = (functionSelector (snd (fst ev)) && async (snd (snd ev)))
                       :: before)).
Proof.
  intro H. pose proof (suppressedScopesEmpty_run evs s H) as Hrun.
  split; [exact Hrun|]. split.
  - intros r Hr Hne. unfold suppressedScopesEmpty in Hrun.
    rewrite forallb_forall in Hrun. specialize (Hrun r Hr).
    destruct (hasAsyncCheck r); [reflexivity|]. cbn in Hrun.
    destruct (noAwaitCalls r); [congruence|discriminate].
  - generalize (run evs s) as st. clear. intro st.
    destruct ev as [[ph sel] ref]. unfold emit, scopeStack.
    cbn [fst snd].
    destruct st as [[[u h l]|] rs qs];
      destruct ph, sel; cbn [listener functionSelector andb];
      unfold enterFunction, exitFunction, enterShortCircuitExpression,
        exitShortCircuitExpression, onCallExpression, isThenableType,
        addNoAwaitCalls, context_report, setScope;
      cbn [scopeInfo reports typeQueries upper hasAsyncCheck noAwaitCalls
           chainFrom tl map snd];
      try (right; right; split; reflexivity);
      try (left; reflexivity);
      try (right; left; destruct (async (snd ref) && _); reflexivity);
      try (right; left; reflexivity).
    destruct h; cbn [negb]; [|left; reflexivity].
    destruct (esTreeNodeToTSNodeMap ref) as [t|]; [|left; reflexivity].
    destruct (tsutils_isThenableType t (getTypeAtLocation t)); [|left; reflexivity].
    destruct (callee (snd ref)) as [cl|]; [|left; reflexivity].
    destruct (isIdentifier cl); left; reflexivity.
Qed.

(** C10.  [enterFunction] gives the new top record the function's own
    [async] flag, whatever lies below it; so a thenable identifier call whose
    nearest enclosing scope-opening node is an asynchronous function is
    reported, also when that function sits inside an await expression or a
    return statement. *)
Theorem function_scope_decides_checkability
  (nd : NodeRef) (s : State) (e : list NodeRef) (p : Path) (n : Node)
  (root : Node) (c f : NodeRef) (encl : list NodeRef) :
  scopeInfo (enterFunction nd s)
  = Some (mkScopeInfo (scopeInfo s) (async (snd nd)) [])
  /\ (isFunctionNode n = true ->
      topCheck (scopeInfo (run (nodeEvents Enter e (p, n)) s)) = async n)
  /\ (In (c, encl) (nodesOf root) ->
      thenableIdentifierCall c = true ->
      nearestScopeOpener encl = Some f ->
      isFunctionNode (snd f) = true ->
      async (snd f) = true ->
      reportsAt (fst c) (reports (analyse root)) = [callReport c]).
Proof.
  split; [reflexivity|]. split.
  - intro Hf. now destruct (dispatch_function e p n s Hf) as [-> _].
  - intros Hin Hv Hnear Hf Has.
    rewrite (reportsAt_call root c encl Hin (thenableIdentifierCall_isCall c Hv)).
    now rewrite Hv, (nearestScopeOpener_async encl f Hnear Hf Has).
Qed.

End RuleFacts.

(** ** Two hosts *)

Lemma emit_sameAnswers (sv1 sv2 : Services) (ev : Event) (s : State) :
  sameAnswers sv1 sv2 [ev] -> @emit sv1 ev s = @emit sv2 ev s.
Proof.
  destruct ev as [[ph sel] ref]. intro H.
  destruct (H ph sel ref (or_introl eq_refl)) as (Hthen & Hmap & Hloc).
  unfold emit.
  destruct ph, sel; cbn [listener]; try reflexivity.
  - unfold onCallExpression, isThenableType.
    destruct (scopeInfo s) as [sc|]; [|reflexivity].
    destruct (negb (hasAsyncCheck sc)); [reflexivity|].
    unfold thenable in Hthen.
    destruct (@esTreeNodeToTSNodeMap sv1 ref) as [t1|],
             (@esTreeNodeToTSNodeMap sv2 ref) as [t2|];
      try reflexivity.
    + now rewrite Hthen.
    + destruct Hmap as [_ Hmap]. now specialize (Hmap eq_refl).
    + destruct Hmap as [Hmap _]. now specialize (Hmap eq_refl).
  - unfold exitFunction. now rewrite Hloc.
  - unfold exitFunction. now rewrite Hloc.
  - unfold exitFunction. now rewrite Hloc.
Qed.

(** C8.  The run is a function of the listener calls and of the host's
    answers on their nodes: two runs over the same calls from the same state,
    with hosts that answer alike on those nodes, end in the same state, with
    the same reports in the same order. *)
Theorem analysis_is_deterministic
  (sv1 sv2 : Services) (evs : list Event) (s : State) :
  sameAnswers sv1 sv2 evs ->
  @run sv1 evs s = @run sv2 evs s
  /\ reports (@run sv1 evs s) = reports (@run sv2 evs s).
Proof.
  intro H.
  assert (E : @run sv1 evs s = @run sv2 evs s); [|now rewrite E].
  revert s. induction evs as [|ev evs IH]; intro s; [reflexivity|].
  cbn [run fold_left].
  rewrite (emit_sameAnswers sv1 sv2 ev s).
  - apply IH. intros ph sel ref Hin. apply (H ph sel ref). now right.
  - intros ph sel ref [E|[]]. subst ev. exact (H ph sel ref (or_introl eq_refl)).
Qed.

(* ================================================================= *)
(** * Further properties of the rule *)

Section MoreFacts.
Context {services : Services}.

(** ** The scope chain across a walk *)

Lemma onCallExpression_appends (nd : NodeRef) (s : State) :
  exists l, scopeInfo (onCallExpression nd s) = appendCalls l (scopeInfo s).
Proof.
  assert (Hnil : forall st : State, exists l, scopeInfo st = appendCalls l (scopeInfo st))
    by (intro st; exists []; now rewrite appendCalls_nil).
  unfold onCallExpression, isThenableType, addNoAwaitCalls.
  destruct (scopeInfo s) as [sc|] eqn:Hsc;
    [|rewrite <- Hsc; apply Hnil].
  destruct (hasAsyncCheck sc); cbn [negb];
    [|rewrite <- Hsc; apply Hnil].
  destruct (esTreeNodeToTSNodeMap nd) as [t|];
    [|rewrite <- Hsc; apply Hnil].
  assert (Hnil' : exists l, Some sc = appendCalls l (Some sc))
    by (exists []; now rewrite appendCalls_nil).
  destruct (tsutils_isThenableType t (getTypeAtLocation t)); [|exact Hnil'].
  destruct (callee (snd nd)) as [cl|]; [|exact Hnil'].
  destruct (isIdentifier cl); [|exact Hnil'].
  cbn. exists [descriptor cl]. reflexivity.
Qed.

Lemma forest_keeps_scope_chain (cs : list Node) :
  Forall (fun c => forall e p s,
              exists l, scopeInfo (run (traverse e p c) s)
                        = appendCalls l (scopeInfo s)) cs ->
  forall e p i s,
    exists l,
      scopeInfo (run (walkForest (nodeEvents Enter) (nodeEvents Exit) e p i cs) s)
      = appendCalls l (scopeInfo s).
Proof.
  induction 1 as [|c cs Hc _ IH]; intros e p i s.
  - exists []. cbn. now rewrite appendCalls_nil.
  - cbn [walkForest]. rewrite run_app.
    destruct (Hc e (p ++ [i]) s) as [l1 H1].
    destruct (IH e p (S i) (run (traverse e (p ++ [i]) c) s)) as [l2 H2].
    exists (l1 ++ l2). unfold traverse in *. now rewrite H2, H1, appendCalls_app.
Qed.

Lemma subtree_keeps_scope_chain (n : Node) :
  forall e p s,
    exists l, scopeInfo (run (traverse e p n) s) = appendCalls l (scopeInfo s).
Proof.
  induction n as [n IH] using Node_forall_ind; intros e p s.
  pose proof (forest_keeps_scope_chain _ IH ((p, n) :: e) p 0) as Hforest.
  unfold traverse. rewrite walk_eq, !run_app.
  destruct (isFunctionNode n) eqn:Hf; [|destruct (isSuspensionBoundary n) eqn:Hb].
  - destruct (dispatch_function e p n s Hf) as [-> _].
    match goal with |- context [run (nodeEvents Exit e (p, n)) ?st] =>
      destruct (dispatch_function e p n st Hf) as [_ ->] end.
    destruct (Hforest (enterFunction (p, n) s)) as [l Hl].
    exists []. unfold exitFunction. rewrite Hl. cbn.
    rewrite appendCalls_nil.
    now destruct (async n && (0 <? List.length l)).
  - destruct (dispatch_boundary e p n Hb) as [H|H].
    + destruct (H s) as [-> _].
      match goal with |- context [run (nodeEvents Exit e (p, n)) ?st] =>
        destruct (H st) as [_ ->] end.
      destruct (Hforest (enterShortCircuitExpression (p, n) s)) as [l Hl].
      exists []. unfold exitShortCircuitExpression. rewrite Hl. cbn.
      now rewrite appendCalls_nil.
    + destruct (H s) as [-> _].
      match goal with |- context [run (nodeEvents Exit e (p, n)) ?st] =>
        destruct (H st) as [_ ->] end.
      destruct (Hforest (enterShortCircuitExpression (p, n)
                           (enterShortCircuitExpression (p, n) s))) as [l Hl].
      exists []. unfold exitShortCircuitExpression at 2. rewrite Hl. cbn.
      now rewrite appendCalls_nil.
  - assert (Ho : opensScope n = false) by (unfold opensScope; now rewrite Hf, Hb).
    destruct (isCall n) eqn:Hc.
    + destruct (dispatch_call e p n s Hc) as [-> _].
      match goal with |- context [run (nodeEvents Exit e (p, n)) ?st] =>
        destruct (dispatch_call e p n st Hc) as [_ ->] end.
      destruct (onCallExpression_appends (p, n) s) as [l1 H1].
      destruct (Hforest (onCallExpression (p, n) s)) as [l2 H2].
      exists (l1 ++ l2). now rewrite H2, H1, appendCalls_app.
    + rewrite !(dispatch_other _ e p n Ho Hc). cbn [run fold_left].
      apply Hforest.
Qed.

(** X1.  The walk over any subtree, started in any state, is balanced: when
    it ends the scope chain is the one it started with, except that the
    record that was on top may have had calls pushed on its list.  The record
    count is the same, the records below the top are the same, and linting a
    whole program ends with no scope record. *)
Theorem walk_is_balanced (n : Node) (e : list NodeRef) (p : Path) (s : State) :
  (exists l, scopeInfo (run (traverse e p n) s) = appendCalls l (scopeInfo s))
  /\ List.length (scopeStack (run (traverse e p n) s))
     = List.length (scopeStack s)
  /\ tl (scopeStack (run (traverse e p n) s)) = tl (scopeStack s)
  /\ scopeInfo (analyse n) = None.
Proof.
  destruct (subtree_keeps_scope_chain n e p s) as [l Hl].
  split; [now exists l|].
  assert (Htl : tl (scopeStack (run (traverse e p n) s)) = tl (scopeStack s)).
  { unfold scopeStack. rewrite Hl. now destruct (scopeInfo s) as [[u h c]|]. }
  split; [|split; [exact Htl|]].
  - unfold scopeStack. rewrite Hl.
    now destruct (scopeInfo s) as [[[u'|] h c]|].
  - unfold analyse. destruct (subtree_keeps_scope_chain n [] [] initialState)
      as [l' ->]. reflexivity.
Qed.

(** ** Every output of a walk comes from a node *)

Lemma walkForest_In_of {A : Type}
  (enter leave : list NodeRef -> NodeRef -> list A) (cs : list Node) :
  Forall (fun c => forall e p x,
              In x (walk enter leave e p c) ->
              exists ref encl,
                In (ref, encl) (preorder e p c)
                /\ (In x (enter encl ref) \/ In x (leave encl ref))) cs ->
  forall e p i x,
    In x (walkForest enter leave e p i cs) ->
    exists ref encl,
      In (ref, encl)
         (walkForest (fun e' r => [(r, e')]) (fun _ _ => []) e p i cs)
      /\ (In x (enter encl ref) \/ In x (leave encl ref)).
Proof.
  induction 1 as [|c cs Hc _ IH]; intros e p i x Hin; cbn in Hin; [easy|].
  cbn [walkForest]. apply in_app_or in Hin as [Hin|Hin].
  - destruct (Hc _ _ _ Hin) as (ref & encl & H1 & H2).
    exists ref, encl. split; [apply in_or_app; now left|exact H2].
  - destruct (IH _ _ _ _ Hin) as (ref & encl & H1 & H2).
    exists ref, encl. split; [apply in_or_app; now right|exact H2].
Qed.

Lemma walk_In {A : Type}
  (enter leave : list NodeRef -> NodeRef -> list A) (n : Node) :
  forall e p x,
    In x (walk enter leave e p n) ->
    exists ref encl,
      In (ref, encl) (preorder e p n)
      /\ (In x (enter encl ref) \/ In x (leave encl ref)).
Proof.
  induction n as [n IH] using Node_forall_ind; intros e p x Hin.
  rewrite walk_eq in Hin. rewrite preorder_eq.
  apply in_app_or in Hin as [Hin|Hin]; [|apply in_app_or in Hin as [Hin|Hin]].
  - exists (p, n), e. split; [now left|now left].
  - destruct (walkForest_In_of enter leave _ IH _ _ _ _ Hin)
      as (ref & encl & H1 & H2).
    exists ref, encl. split; [now right|exact H2].
  - exists (p, n), e. split; [now left|now right].
Qed.

(** X2.  The diagnostics of a program, in the order they are reported, are
    those of one pass over its nodes: on entering a call that returns a
    thenable through an identifier callee and whose nearest enclosing
    scope-opening node is an asynchronous function, one [asyncCallNoAwait];
    on leaving an asynchronous function that has such calls of its own, one
    [noAwaitBeforeReturnPromise] listing them; nothing else. *)
Theorem diagnostics_in_document_order (root : Node) :
  reports (analyse root) = walk enterReports leaveReports [] [] root.
Proof. apply analyse_reports. Qed.

(** X3.  No diagnostic is unfounded.  Each one sits on a node of the program;
    an [asyncCallNoAwait] sits on a call that returns a thenable through an
    identifier callee and whose nearest enclosing scope-opening node is an
    asynchronous function, and a [noAwaitBeforeReturnPromise] on an
    asynchronous function that has at least one such call of its own. *)
Theorem every_diagnostic_is_justified (root : Node) (r : Report) :
  In r (reports (analyse root)) ->
  exists encl,
    In (node r, encl) (nodesOf root)
    /\ ((r = callReport (node r)
         /\ thenableIdentifierCall (node r) = true
         /\ checkable encl = true)
        \/ (r = summaryReport (node r)
                  (map calleeDescriptor
                       (ownCalls (fst (node r)) (snd (node r))))
            /\ isFunctionNode (snd (node r)) = true
            /\ async (snd (node r)) = true
            /\ ownCalls (fst (node r)) (snd (node r)) <> [])).
Proof.
  rewrite analyse_reports. intro Hin.
  destruct (walk_In enterReports leaveReports root [] [] r Hin)
    as (ref & encl & Hnode & [Hr|Hr]).
  - unfold enterReports in Hr.
    destruct (thenableIdentifierCall ref) eqn:Hv; [|destruct Hr].
    destruct (checkable encl) eqn:Hchk; [|destruct Hr].
    destruct Hr as [<-|[]]. cbn [node callReport].
    exists encl. split; [exact Hnode|]. left. now rewrite Hv.
  - unfold leaveReports in Hr.
    destruct (isFunctionNode (snd ref)) eqn:Hf; [|destruct Hr].
    destruct (async (snd ref)) eqn:Has; [|destruct Hr].
    destruct (ownCalls (fst ref) (snd ref)) as [|c cs] eqn:Hown; [destruct Hr|].
    destruct Hr as [<-|[]]. cbn [node summaryReport].
    exists encl. split; [exact Hnode|]. right.
    rewrite Hf, Has, Hown. repeat split. discriminate.
Qed.

(** X4.  No node is reported twice: on any node of a program there is at
    most one diagnostic. *)
Theorem at_most_one_diagnostic_per_node
  (root : Node) (ref : NodeRef) (encl : list NodeRef) :
  In (ref, encl) (nodesOf root) ->
  List.length (reportsAt (fst ref) (reports (analyse root))) <= 1.
Proof.
  intro Hin. rewrite (reportsAt_node root ref encl Hin).
  destruct (isCall (snd ref)) eqn:Hc.
  - rewrite leaveReports_not_function.
    + unfold enterReports.
      destruct (thenableIdentifierCall ref && checkable encl); cbn; lia.
    + pose proof (call_not_opener _ Hc) as Ho. unfold opensScope in Ho.
      now apply orb_false_iff in Ho as [Ho _].
  - rewrite (enterReports_not_call encl ref Hc). unfold leaveReports.
    destruct (isFunctionNode (snd ref) && async (snd ref)
              && (0 <? List.length (ownCalls (fst ref) (snd ref)))); cbn; lia.
Qed.

(** ** A function and the diagnostics of its subtree *)

Lemma run_traverse_all (cs : list Node) :
  Forall (fun c => forall e p s,
              topCheck (scopeInfo s) = checkable e ->
              pushed (if checkable e
                      then map calleeDescriptor (directCalls [] p c) else [])
                     (walk enterReports leaveReports e p c)
                     s (run (traverse e p c) s)) cs.
Proof. apply Forall_forall. intros c _. apply run_traverse. Qed.

(** The walk over a function node, from any state. *)
Lemma function_walk (e : list NodeRef) (p : Path) (f : Node) (s : State) :
  isFunctionNode f = true ->
  pushed []
         (walkForest enterReports leaveReports ((p, f) :: e) p 0 (children f)
          ++ leaveReports e (p, f))
         s (run (traverse e p f) s).
Proof.
  intro Hf. unfold traverse. rewrite walk_eq, !run_app.
  destruct (dispatch_function e p f s Hf) as [-> _].
  match goal with |- context [run (nodeEvents Exit e (p, f)) ?st] =>
    destruct (dispatch_function e p f st Hf) as [_ ->] end.
  apply function_pushed; [exact Hf|].
  pose proof (run_traverseForest_of _ (run_traverse_all (children f))
                ((p, f) :: e) p 0 (enterFunction (p, f) s)) as H.
  rewrite checkable_cons in H. cbn [snd] in H.
  unfold opensScope in H. rewrite Hf in H. cbn [orb andb] in H.
  rewrite ownCalls_eq. apply H. reflexivity.
Qed.

Lemma walk_at_all {A : Type} (pathOf : A -> Path)
  (enter leave : list NodeRef -> NodeRef -> list A)
  (Hen : forall e ref x, In x (enter e ref) -> pathOf x = fst ref)
  (Hle : forall e ref x, In x (leave e ref) -> pathOf x = fst ref)
  (cs : list Node) :
  Forall (fun c => forall e p x encl,
              In (x, encl) (preorder e p c) ->
              keepAt pathOf (fst x) (walk enter leave e p c)
              = enter encl x ++ leave encl x) cs.
Proof.
  apply Forall_forall. intros c _. now apply walk_at.
Qed.

(** X5.  From any state, the walk over an asynchronous function that has
    calls of its own reports the function's summary last: everything else it
    reports sits strictly below the function, the diagnostics of the
    function's own calls are among it, and the summary follows. *)
Theorem summary_follows_the_function_body
  (e : list NodeRef) (p : Path) (f : Node) (s : State) :
  isFunctionNode f = true ->
  async f = true ->
  ownCalls p f <> [] ->
  exists inner,
    reports (run (traverse e p f) s)
    = reports s ++ inner
      ++ [summaryReport (p, f) (map calleeDescriptor (ownCalls p f))]
    /\ (forall c, In c (ownCalls p f) -> In (callReport c) inner)
    /\ (forall r, In r inner -> exists j q, fst (node r) = p ++ j :: q).
Proof.
  intros Hf Has Hne.
  exists (walkForest enterReports leaveReports ((p, f) :: e) p 0 (children f)).
  split; [|split].
  - destruct (function_walk e p f s Hf) as [_ ->].
    unfold leaveReports. cbn [fst snd]. rewrite Hf, Has.
    destruct (ownCalls p f); [congruence|reflexivity].
  - intros c Hc. apply ownCalls_In in Hc as (erel & Hbelow & Hv & Hno).
    assert (Hin : In (c, erel ++ (p, f) :: e)
                     (walkForest (fun e' r => [(r, e')]) (fun _ _ => [])
                        ((p, f) :: e) p 0 (children f))).
    { pose proof (preorderForest_shift ((p, f) :: e) (children f) [] p 0) as H.
      cbn [app] in H. rewrite H.
      exact (in_map (fun x => (fst x, snd x ++ (p, f) :: e)) _ _ Hbelow). }
    pose proof (walkForest_at_of (fun r => fst (node r)) enterReports leaveReports
                  enterReports_here leaveReports_here _
                  (walk_at_all _ _ _ enterReports_here leaveReports_here _)
                  _ _ _ _ _ Hin) as Hat.
    assert (Hrep : enterReports (erel ++ (p, f) :: e) c = [callReport c]).
    { unfold enterReports. rewrite Hv, (checkable_app _ _ Hno), checkable_cons.
      unfold opensScope. cbn [snd]. now rewrite Hf, Has. }
    rewrite Hrep in Hat. cbn [app] in Hat.
    assert (Hmem : In (callReport c)
                      (keepAt (fun r => fst (node r)) (fst c)
                         (walkForest enterReports leaveReports ((p, f) :: e) p 0
                            (children f))))
      by (rewrite Hat; now left).
    unfold keepAt in Hmem. now apply filter_In in Hmem as [Hmem _].
  - intros r Hr.
    destruct (walkForest_paths (fun r => fst (node r)) enterReports leaveReports
                enterReports_here leaveReports_here _ _ _ _ _ Hr)
      as (j & q & _ & Hq).
    now exists j, q.
Qed.

(** ** The checker's log *)

Lemma enterQueries_here (e : list NodeRef) (ref x : NodeRef) :
  In x (enterQueries e ref) -> fst x = fst ref.
Proof.
  unfold enterQueries.
  destruct (isCall (snd ref) && checkable e && hasTSNode ref); [|easy].
  now intros [<-|[]].
Qed.

Lemma onCallExpression_queries (e : list NodeRef) (ref : NodeRef) (s : State) :
  isCall (snd ref) = true ->
  topCheck (scopeInfo s) = checkable e ->
  typeQueries (onCallExpression ref s) = typeQueries s ++ enterQueries e ref.
Proof.
  intros Hc Htop. unfold onCallExpression, enterQueries, hasTSNode, isThenableType,
    addNoAwaitCalls.
  rewrite Hc, <- Htop. cbn [andb].
  destruct s as [[[u h l]|] rs qs]; cbn [scopeInfo topCheck hasAsyncCheck typeQueries];
    [|now rewrite app_nil_r].
  destruct h; cbn [negb andb]; [|now rewrite app_nil_r].
  destruct (esTreeNodeToTSNodeMap ref) as [t|]; [|now rewrite app_nil_r].
  destruct (tsutils_isThenableType t (getTypeAtLocation t)); [|reflexivity].
  destruct (callee (snd ref)) as [cl|]; [|reflexivity].
  now destruct (isIdentifier cl).
Qed.

Lemma exitFunction_queries (ref : NodeRef) (s : State) :
  typeQueries (exitFunction ref s) = typeQueries s.
Proof.
  unfold exitFunction. destruct (scopeInfo s) as [sc|]; [|reflexivity].
  now destruct (async (snd ref) && (0 <? List.length (noAwaitCalls sc))).
Qed.

Lemma exitShortCircuitExpression_queries (ref : NodeRef) (s : State) :
  typeQueries (exitShortCircuitExpression ref s) = typeQueries s.
Proof. unfold exitShortCircuitExpression. now destruct (scopeInfo s). Qed.

Lemma queries_traverseForest_of (cs : list Node) :
  Forall (fun c => forall e p s,
              topCheck (scopeInfo s) = checkable e ->
              typeQueries (run (traverse e p c) s)
              = typeQueries s ++ walk enterQueries (fun _ _ => []) e p c) cs ->
  forall e p i s,
    topCheck (scopeInfo s) = checkable e ->
    typeQueries (run (walkForest (nodeEvents Enter) (nodeEvents Exit) e p i cs) s)
    = typeQueries s ++ walkForest enterQueries (fun _ _ => []) e p i cs.
Proof.
  induction 1 as [|c cs Hc _ IH]; intros e p i s Htop.
  - cbn. now rewrite app_nil_r.
  - cbn [walkForest]. rewrite run_app.
    change (walk (nodeEvents Enter) (nodeEvents Exit) e (p ++ [i]) c)
      with (traverse e (p ++ [i]) c).
    rewrite IH, (Hc _ _ _ Htop), app_assoc; [reflexivity|].
    rewrite <- Htop.
    exact (pushed_topCheck _ _ _ _ (run_traverse c e (p ++ [i]) s Htop)).
Qed.

Lemma queries_traverse (n : Node) :
  forall e p s,
    topCheck (scopeInfo s) = checkable e ->
    typeQueries (run (traverse e p n) s)
    = typeQueries s ++ walk enterQueries (fun _ _ => []) e p n.
Proof.
  induction n as [n IH] using Node_forall_ind; intros e p s Htop.
  pose proof (queries_traverseForest_of _ IH ((p, n) :: e) p 0) as Hforest.
  rewrite checkable_cons in Hforest. cbn [snd] in Hforest.
  unfold traverse. rewrite !walk_eq, !run_app, app_nil_r.
  destruct (isFunctionNode n) eqn:Hf; [|destruct (isSuspensionBoundary n) eqn:Hb].
  - assert (Ho : opensScope n = true) by (unfold opensScope; now rewrite Hf).
    assert (Hc : isCall n = false).
    { destruct (isCall n) eqn:E; [|reflexivity].
      apply call_not_opener in E. congruence. }
    rewrite Ho in Hforest. cbn [andb] in Hforest.
    unfold enterQueries at 1. cbn [snd]. rewrite Hc. cbn [andb app].
    destruct (dispatch_function e p n s Hf) as [-> _].
    match goal with |- context [run (nodeEvents Exit e (p, n)) ?st] =>
      destruct (dispatch_function e p n st Hf) as [_ ->] end.
    rewrite exitFunction_queries. now rewrite Hforest.
  - assert (Ho : opensScope n = true)
      by (unfold opensScope; now rewrite Hb, orb_true_r).
    assert (Hc : isCall n = false).
    { destruct (isCall n) eqn:E; [|reflexivity].
      apply call_not_opener in E. congruence. }
    rewrite Ho in Hforest. cbn [andb] in Hforest.
    unfold enterQueries at 1. cbn [snd]. rewrite Hc. cbn [andb app].
    destruct (dispatch_boundary e p n Hb) as [H|H].
    + destruct (H s) as [-> _].
      match goal with |- context [run (nodeEvents Exit e (p, n)) ?st] =>
        destruct (H st) as [_ ->] end.
      rewrite exitShortCircuitExpression_queries. now rewrite Hforest.
    + destruct (H s) as [-> _].
      match goal with |- context [run (nodeEvents Exit e (p, n)) ?st] =>
        destruct (H st) as [_ ->] end.
      rewrite !exitShortCircuitExpression_queries. now rewrite Hforest.
  - assert (Ho : opensScope n = false) by (unfold opensScope; now rewrite Hf, Hb).
    rewrite Ho in Hforest.
    destruct (isCall n) eqn:Hc.
    + destruct (dispatch_call e p n s Hc) as [-> _].
      match goal with |- context [run (nodeEvents Exit e (p, n)) ?st] =>
        destruct (dispatch_call e p n st Hc) as [_ ->] end.
      rewrite Hforest.
      * now rewrite (onCallExpression_queries e (p, n) s Hc Htop), app_assoc.
      * rewrite <- Htop.
        exact (pushed_topCheck _ _ _ _
                 (onCallExpression_pushed e (p, n) s Hc Htop)).
    + rewrite !(dispatch_other _ e p n Ho Hc). cbn [run fold_left].
      unfold enterQueries at 1. cbn [snd]. rewrite Hc. cbn [andb app].
      now apply Hforest.
Qed.

(** X6.  The checker is asked for the type of exactly the calls that the
    node map knows and whose nearest enclosing scope-opening node is an
    asynchronous function: once each, in document order, whatever their
    callee is; no other node is ever type-checked. *)
Theorem checker_queries_in_document_order (root : Node) :
  typeQueries (analyse root) = walk enterQueries (fun _ _ => []) [] [] root.
Proof. exact (queries_traverse root [] [] initialState eq_refl). Qed.

Lemma queried_iff (root : Node) (c : NodeRef) (encl : list NodeRef) :
  In (c, encl) (nodesOf root) ->
  isCall (snd c) = true ->
  In c (typeQueries (analyse root))
  <-> checkable encl = true /\ hasTSNode c = true.
Proof.
  intros Hin Hc.
  unfold analyse.
  rewrite (queries_traverse root [] [] initialState eq_refl). cbn [typeQueries app].
  split.
  - intro Hq.
    destruct (walk_In enterQueries (fun _ _ => []) root [] [] c Hq)
      as (ref & encl' & Hnode & [Hr|[]]).
    unfold enterQueries in Hr.
    destruct (isCall (snd ref) && checkable encl' && hasTSNode ref) eqn:E;
      [|destruct Hr].
    destruct Hr as [->|[]].
    destruct (nodesOf_unique root c c encl encl' Hin Hnode eq_refl) as [_ ->].
    apply andb_true_iff in E as [E E2]. apply andb_true_iff in E as [_ E1].
    now split.
  - intros [Hchk Hts].
    pose proof (walk_at (fun x : NodeRef => fst x) enterQueries (fun _ _ => [])
                  enterQueries_here (fun _ _ _ (H : False) => match H with end)
                  root [] [] c encl Hin) as Hat.
    unfold enterQueries in Hat at 2. rewrite Hc, Hchk, Hts in Hat.
    cbn [andb app] in Hat.
    assert (Hmem : In c (keepAt (fun x : NodeRef => fst x) (fst c)
                           (walk enterQueries (fun _ _ => []) [] [] root)))
      by (rewrite Hat; now left).
    unfold keepAt in Hmem. now apply filter_In in Hmem as [Hmem _].
Qed.

(** X7.  A call of a program is type-checked if and only if its nearest
    enclosing scope-opening node is an asynchronous function and the node map
    knows it.  So a call through a member callee in such a place costs a
    type query although it can never be reported, and a call anywhere else
    costs none. *)
Theorem call_is_queried_iff_checkable
  (root : Node) (c : NodeRef) (encl : list NodeRef) :
  In (c, encl) (nodesOf root) ->
  isCall (snd c) = true ->
  In c (typeQueries (analyse root))
  <-> checkable encl = true /\ hasTSNode c = true.
Proof. apply queried_iff. Qed.

(** X8.  A call with no function, await, return or for-await around it, such
    as a call at the top level of a module, is neither type-checked nor
    reported, whatever it returns. *)
Theorem top_level_call_is_ignored
  (root : Node) (c : NodeRef) (encl : list NodeRef) :
  In (c, encl) (nodesOf root) ->
  isCall (snd c) = true ->
  nearestScopeOpener encl = None ->
  reportsAt (fst c) (reports (analyse root)) = []
  /\ ~ In c (typeQueries (analyse root)).
Proof.
  intros Hin Hc Hnone.
  assert (Hchk : checkable encl = false) by (unfold checkable; now rewrite Hnone).
  split.
  - rewrite (reportsAt_call root c encl Hin Hc). now rewrite Hchk, andb_false_r.
  - intro Hq. apply (queried_iff root c encl Hin Hc) in Hq as [Hq _]. congruence.
Qed.

(** X9.  A for-of loop opens a scope only when it is a for-await loop.  A
    call whose nearest enclosing scope-opening node is a for-of loop, be it
    in the loop's head or in its body, is neither type-checked nor reported
    nor listed in a summary. *)
Theorem for_await_suppresses_its_subtree
  (root : Node) (c b : NodeRef) (encl : list NodeRef) :
  In (c, encl) (nodesOf root) ->
  isCall (snd c) = true ->
  nearestScopeOpener encl = Some b ->
  type (snd b) = ForOfStatement ->
  await (snd b) = true
  /\ reportsAt (fst c) (reports (analyse root)) = []
  /\ ~ In c (typeQueries (analyse root))
  /\ (forall f enclf,
        In (f, enclf) (nodesOf root) ->
        isFunctionNode (snd f) = true ->
        async (snd f) = true ->
        ~ In c (ownCalls (fst f) (snd f))).
Proof.
  intros Hin Hc Hb Hty.
  assert (Hfn : isFunctionNode (snd b) = false)
    by (unfold isFunctionNode; now rewrite Hty).
  assert (Hchk : checkable encl = false)
    by exact (nearestScopeOpener_boundary encl b Hb Hfn).
  split; [|split; [|split]].
  - unfold nearestScopeOpener in Hb. apply find_some in Hb as [_ Ho].
    unfold opensScope, isSuspensionBoundary in Ho. cbn [snd] in Ho.
    now rewrite Hfn, Hty in Ho.
  - rewrite (reportsAt_call root c encl Hin Hc). now rewrite Hchk, andb_false_r.
  - intro Hq. apply (queried_iff root c encl Hin Hc) in Hq as [Hq _]. congruence.
  - intros f enclf. now apply (not_checkable_not_listed root c f encl enclf).
Qed.

(** X10.  Nodes that are neither functions nor suspension boundaries are
    transparent: wrapped in any nesting of blocks, statements, plain for-of
    loops, other calls and the like, a call is reported exactly when it would
    be reported in their place. *)
Theorem plain_nesting_is_transparent
  (root : Node) (c : NodeRef) (erel encl : list NodeRef) :
  In (c, erel ++ encl) (nodesOf root) ->
  isCall (snd c) = true ->
  noScopeOpener erel = true ->
  reportsAt (fst c) (reports (analyse root))
  = if thenableIdentifierCall c && checkable encl then [callReport c] else [].
Proof.
  intros Hin Hc Hno. rewrite (reportsAt_call root c _ Hin Hc).
  now rewrite (checkable_app _ _ Hno).
Qed.

(** ** Ancestors *)

Lemma preorder_shift (ctx : list NodeRef) (n : Node) :
  forall e p,
    preorder (e ++ ctx) p n
    = map (fun x => (fst x, snd x ++ ctx)) (preorder e p n).
Proof.
  intros e p. unfold preorder.
  rewrite map_as_flat_map, walk_flat_map.
  rewrite <- (app_nil_r e) at 2.
  apply (walk_ctx_ext _ _ _ _ ctx []); [|now intros].
  intros e' ref. cbn. now rewrite app_nil_r.
Qed.

Lemma in_shifted (ctx : list NodeRef) (l : list (NodeRef * list NodeRef))
  (c : NodeRef) (encl : list NodeRef) :
  In (c, encl) (map (fun x => (fst x, snd x ++ ctx)) l) ->
  exists encl', encl = encl' ++ ctx /\ In (c, encl') l.
Proof.
  intro H. apply in_map_iff in H as ([c' encl'] & E & Hin).
  cbn in E. inversion E; subst. now exists encl'.
Qed.

(** Where the chain of a node is cut, the upper part is the chain of the
    node at the cut, and the lower part leads from it down to the node. *)
Lemma chain_split_forest (n : NodeRef) (c f : NodeRef)
  (erel : list NodeRef) (cs : list Node) :
  Forall (fun ch => forall p enclf,
              In (c, erel ++ f :: enclf) (preorder [] p ch) ->
              In (f, enclf) (preorder [] p ch)
              /\ In (c, erel) (nodesBelow (fst f) (snd f))) cs ->
  forall i enclf,
    In (c, erel ++ f :: enclf)
       (walkForest (fun e' r => [(r, e')]) (fun _ _ => []) [n] (fst n) i cs) ->
    (enclf = [] /\ f = n
     /\ In (c, erel)
           (walkForest (fun e' r => [(r, e')]) (fun _ _ => []) [] (fst n) i cs))
    \/ (In (f, enclf)
           (walkForest (fun e' r => [(r, e')]) (fun _ _ => []) [n] (fst n) i cs)
        /\ In (c, erel) (nodesBelow (fst f) (snd f))).
Proof.
  induction 1 as [|ch cs Hch _ IH]; intros i enclf Hin; cbn in Hin; [easy|].
  cbn [walkForest]. apply in_app_or in Hin as [Hin|Hin].
  - change (walk (fun e' r => [(r, e')]) (fun _ _ => []) [n] (fst n ++ [i]) ch)
      with (preorder ([] ++ [n]) (fst n ++ [i]) ch) in Hin.
    rewrite preorder_shift in Hin.
    apply in_shifted in Hin as (encl' & E & Hin).
    destruct (exists_last (l := f :: enclf)) as (front & lst & Hlast);
      [discriminate|].
    destruct enclf as [|a enclf'].
    + apply app_inj_tail in E as [-> ->]. left.
      repeat split. apply in_or_app. now left.
    + assert (Hfront : exists enclf'', a :: enclf' = enclf'' ++ [lst]
                                       /\ front = f :: enclf'').
      { destruct front as [|f0 front']; cbn in Hlast.
        - inversion Hlast.
        - inversion Hlast; subst. now exists front'. }
      destruct Hfront as (enclf'' & Ea & ->).
      rewrite Ea in E |- *.
      change (erel ++ f :: enclf'' ++ [lst])
        with (erel ++ (f :: enclf'') ++ [lst]) in E.
      rewrite app_assoc in E. apply app_inj_tail in E as [E ->].
      subst encl'. destruct (Hch _ _ Hin) as [H1 H2]. right. split; [|exact H2].
      apply in_or_app. left.
      change (walk (fun e' r => [(r, e')]) (fun _ _ => []) [n] (fst n ++ [i]) ch)
        with (preorder ([] ++ [n]) (fst n ++ [i]) ch).
      rewrite preorder_shift.
      exact (in_map (fun x => (fst x, snd x ++ [n])) _ _ H1).
  - destruct (IH _ _ Hin) as [(E1 & E2 & H)|[H1 H2]].
    + left. repeat split; try assumption. apply in_or_app. now right.
    + right. split; [|exact H2]. apply in_or_app. now right.
Qed.

Lemma chain_split (c f : NodeRef) (erel : list NodeRef) (n : Node) :
  forall p enclf,
    In (c, erel ++ f :: enclf) (preorder [] p n) ->
    In (f, enclf) (preorder [] p n)
    /\ In (c, erel) (nodesBelow (fst f) (snd f)).
Proof.
  induction n as [n IH] using Node_forall_ind; intros p enclf Hin.
  rewrite preorder_eq in *. destruct Hin as [Hin|Hin].
  - inversion Hin as [[E1 E2]]. now apply app_cons_not_nil in E2.
  - destruct (chain_split_forest (p, n) c f erel _ IH 0 enclf Hin)
      as [(-> & -> & H)|[H1 H2]].
    + split; [now left|exact H].
    + split; [now right|exact H2].
Qed.

Lemma checkable_split (encl : list NodeRef) :
  checkable encl = true ->
  exists erel f enclf,
    encl = erel ++ f :: enclf
    /\ noScopeOpener erel = true
    /\ isFunctionNode (snd f) = true /\ async (snd f) = true.
Proof.
  induction encl as [|a e IH]; [discriminate|].
  rewrite checkable_cons. destruct (opensScope (snd a)) eqn:Ho.
  - intro H. apply andb_true_iff in H as [H1 H2].
    now exists [], a, e.
  - intro H. destruct (IH H) as (erel & f & enclf & -> & Hno & Hf & Has).
    exists (a :: erel), f, enclf. repeat split; try assumption.
    cbn. now rewrite Ho.
Qed.

(** X11.  A call that is reported belongs to an asynchronous function of the
    program: that function has the call among its own calls and is itself
    reported, with a summary that lists the call's descriptor. *)
Theorem reported_call_is_listed_in_a_summary
  (root : Node) (c : NodeRef) (encl : list NodeRef) :
  In (c, encl) (nodesOf root) ->
  isCall (snd c) = true ->
  reportsAt (fst c) (reports (analyse root)) <> [] ->
  exists f enclf,
    In (f, enclf) (nodesOf root)
    /\ isFunctionNode (snd f) = true /\ async (snd f) = true
    /\ In c (ownCalls (fst f) (snd f))
    /\ reportsAt (fst f) (reports (analyse root))
       = [summaryReport f (map calleeDescriptor (ownCalls (fst f) (snd f)))]
    /\ In (calleeDescriptor c)
          (map calleeDescriptor (ownCalls (fst f) (snd f))).
Proof.
  intros Hin Hc Hrep. rewrite (reportsAt_call root c encl Hin Hc) in Hrep.
  destruct (thenableIdentifierCall c) eqn:Hv; [|now cbn in Hrep].
  destruct (checkable encl) eqn:Hchk; [|now cbn in Hrep].
  destruct (checkable_split encl Hchk) as (erel & f & enclf & -> & Hno & Hf & Has).
  destruct (chain_split c f erel root [] enclf Hin) as [Hfin Hbelow].
  assert (Hown : In c (ownCalls (fst f) (snd f)))
    by (apply ownCalls_In; now exists erel).
  exists f, enclf. repeat split; try assumption.
  - rewrite (reportsAt_function root f enclf Hfin Hf), Has.
    destruct (ownCalls (fst f) (snd f)); [destruct Hown|reflexivity].
  - now apply in_map.
Qed.

(** ** Runs over arbitrary listener calls *)

Lemma scopeStack_pop (s : State) (sc : ScopeInfo) (rs : list Report)
  (qs : list NodeRef) :
  scopeInfo s = Some sc ->
  scopeStack (mkState (upper sc) rs qs) = tl (scopeStack s).
Proof.
  intro H. unfold scopeStack. cbn [scopeInfo]. rewrite H.
  now destruct sc as [[u|] h l].
Qed.

Lemma scopeStack_push (s : State) (r : ScopeInfo) (rs : list Report)
  (qs : list NodeRef) :
  upper r = scopeInfo s ->
  scopeStack (mkState (Some r) rs qs) = r :: scopeStack s.
Proof.
  intro H. unfold scopeStack. cbn [scopeInfo]. rewrite <- H.
  now destruct r as [[u|] h l].
Qed.

(** What one listener call does: it reports nothing, or it reports one call
    and records it on the top record, or it reports one summary with the top
    record's list and pops that record. *)
Lemma emit_cases (ev : Event) (s : State) :
  (reports (emit ev s) = reports s
   /\ (exists q, typeQueries (emit ev s) = typeQueries s ++ q
                 /\ List.length q <= 1)
   /\ (scopeStack (emit ev s) = scopeStack s
       \/ scopeStack (emit ev s) = tl (scopeStack s)
       \/ exists flag,
            scopeStack (emit ev s)
            = mkScopeInfo (scopeInfo s) flag [] :: scopeStack s))
  \/ (exists sc cl,
        scopeInfo s = Some sc
        /\ callee (snd (snd ev)) = Some cl
        /\ isIdentifier cl = true
        /\ thenable (snd ev) = true
        /\ scopeStack (emit ev s)
           = mkScopeInfo (upper sc) (hasAsyncCheck sc)
                         (noAwaitCalls sc ++ [descriptor cl])
               :: tl (scopeStack s)
        /\ reports (emit ev s)
           = reports s ++ [mkReport (snd ev) (loc cl) asyncCallNoAwait None]
        /\ typeQueries (emit ev s) = typeQueries s ++ [snd ev])
  \/ (exists sc,
        scopeInfo s = Some sc
        /\ scopeStack (emit ev s) = tl (scopeStack s)
        /\ reports (emit ev s)
           = reports s ++ [mkReport (snd ev) (getFunctionHeadLoc (snd ev))
                                    noAwaitBeforeReturnPromise
                                    (Some (noAwaitCalls sc))]
        /\ typeQueries (emit ev s) = typeQueries s).
Proof.
  assert (Hsame : forall (st : State) (u : option ScopeInfo),
             reports st = reports st
             /\ (exists q, typeQueries st = typeQueries st ++ q
                           /\ List.length q <= 1)
             /\ (scopeStack st = scopeStack st
                 \/ scopeStack st = tl (scopeStack st)
                 \/ exists flag,
                      scopeStack st = mkScopeInfo u flag [] :: scopeStack st)).
  { intros st u. split; [reflexivity|]. split; [|now left].
    exists []. rewrite app_nil_r. cbn. split; [reflexivity|lia]. }
  assert (Hpush : forall flag,
             let st := setScope (Some (mkScopeInfo (scopeInfo s) flag [])) s in
             reports st = reports s
             /\ (exists q, typeQueries st = typeQueries s ++ q
                           /\ List.length q <= 1)
             /\ (scopeStack st = scopeStack s
                 \/ scopeStack st = tl (scopeStack s)
                 \/ exists flag',
                      scopeStack st
                      = mkScopeInfo (scopeInfo s) flag' [] :: scopeStack s)).
  { intros flag st. split; [reflexivity|]. split.
    - exists []. cbn. rewrite app_nil_r. split; [reflexivity|lia].
    - right. right. exists flag. now apply scopeStack_push. }
  assert (Hpop : forall x,
             reports (exitShortCircuitExpression x s) = reports s
             /\ (exists q, typeQueries (exitShortCircuitExpression x s)
                           = typeQueries s ++ q /\ List.length q <= 1)
             /\ (scopeStack (exitShortCircuitExpression x s) = scopeStack s
                 \/ scopeStack (exitShortCircuitExpression x s)
                    = tl (scopeStack s)
                 \/ exists flag,
                      scopeStack (exitShortCircuitExpression x s)
                      = mkScopeInfo (scopeInfo s) flag [] :: scopeStack s)).
  { intro x. unfold exitShortCircuitExpression.
    destruct (scopeInfo s) as [sc|] eqn:Hsc; [|apply Hsame].
    split; [reflexivity|]. split.
    - exists []. cbn. rewrite app_nil_r. split; [reflexivity|lia].
    - right. left. now apply scopeStack_pop. }
  assert (Hexit : forall x,
             (reports (exitFunction x s) = reports s
              /\ (exists q, typeQueries (exitFunction x s) = typeQueries s ++ q
                            /\ List.length q <= 1)
              /\ (scopeStack (exitFunction x s) = scopeStack s
                  \/ scopeStack (exitFunction x s) = tl (scopeStack s)
                  \/ exists flag,
                       scopeStack (exitFunction x s)
                       = mkScopeInfo (scopeInfo s) flag [] :: scopeStack s))
             \/ (exists sc,
                   scopeInfo s = Some sc
                   /\ scopeStack (exitFunction x s) = tl (scopeStack s)
                   /\ reports (exitFunction x s)
                      = reports s ++ [mkReport x (getFunctionHeadLoc x)
                                               noAwaitBeforeReturnPromise
                                               (Some (noAwaitCalls sc))]
                   /\ typeQueries (exitFunction x s) = typeQueries s)).
  { intro x. unfold exitFunction.
    destruct (scopeInfo s) as [sc|] eqn:Hsc; [|left; apply Hsame].
    destruct (async (snd x) && (0 <? List.length (noAwaitCalls sc))).
    - right. exists sc. repeat split. now apply scopeStack_pop.
    - left. split; [reflexivity|]. split.
      + exists []. cbn. rewrite app_nil_r. split; [reflexivity|lia].
      + right. left. now apply scopeStack_pop. }
  destruct ev as [[ph sel] ref]. unfold emit. cbn [snd].
  destruct ph, sel; cbn [listener];
    try (left; apply Hsame);
    try (left; apply Hpush);
    try (left; apply Hpop);
    try (destruct (Hexit ref) as [H|H]; [left; exact H|right; right; exact H]).
  (* CallExpression *)
  unfold onCallExpression, isThenableType, addNoAwaitCalls, thenable.
  destruct (scopeInfo s) as [sc|] eqn:Hsc; [|left; apply Hsame].
  destruct (hasAsyncCheck sc); cbn [negb]; [|left; apply Hsame].
  destruct (esTreeNodeToTSNodeMap ref) as [t|]; [|left; apply Hsame].
  assert (Hquery : forall rs u,
             rs = reports s ->
             reports (mkState (Some sc) rs (typeQueries s ++ [ref])) = reports s
             /\ (exists q, typeQueries
                             (mkState (Some sc) rs (typeQueries s ++ [ref]))
                           = typeQueries s ++ q /\ List.length q <= 1)
             /\ (scopeStack (mkState (Some sc) rs (typeQueries s ++ [ref]))
                 = scopeStack s
                 \/ scopeStack (mkState (Some sc) rs (typeQueries s ++ [ref]))
                    = tl (scopeStack s)
                 \/ exists flag,
                      scopeStack (mkState (Some sc) rs (typeQueries s ++ [ref]))
                      = mkScopeInfo u flag [] :: scopeStack s)).
  { intros rs u ->. split; [reflexivity|]. split.
    - exists [ref]. split; [reflexivity|cbn; lia].
    - left. unfold scopeStack. cbn [scopeInfo]. now rewrite Hsc. }
  destruct (tsutils_isThenableType t (getTypeAtLocation t));
    [|left; now apply Hquery].
  destruct (callee (snd ref)) as [cl|] eqn:Hcl; [|left; now apply Hquery].
  destruct (isIdentifier cl) eqn:Hid; [|left; now apply Hquery].
  right. left. exists sc, cl. cbn [scopeInfo]. repeat split; [exact Hid|].
  unfold scopeStack at 2. rewrite Hsc. unfold scopeStack. cbn.
  now destruct sc as [[u|] h l].
Qed.

Lemma snoc_split {A : Type} (l l1 l2 : list A) (x y : A) :
  l ++ [x] = l1 ++ y :: l2 ->
  (l2 = [] /\ l1 = l /\ y = x)
  \/ (exists l2', l2 = l2' ++ [x] /\ l = l1 ++ y :: l2').
Proof.
  intro E. destruct l2 as [|a l2] using rev_ind.
  - left. apply app_inj_tail in E as [-> ->]. now repeat split.
  - right. exists l2. clear IHl2.
    change (l1 ++ y :: l2 ++ [a]) with (l1 ++ (y :: l2) ++ [a]) in E.
    rewrite app_assoc in E. apply app_inj_tail in E as [-> ->]. now split.
Qed.

Lemma callReported_app (d : string) (l l' : list Report) :
  callReported d l -> callReported d (l ++ l').
Proof.
  intros (rc & Hin & H). exists rc. split; [|exact H].
  apply in_or_app. now left.
Qed.

Lemma top_in_scopeStack (s : State) (sc : ScopeInfo) :
  scopeInfo s = Some sc -> In sc (scopeStack s).
Proof.
  intro H. unfold scopeStack. rewrite H. destruct sc as [u h l]. now left.
Qed.

Lemma in_tl {A : Type} (x : A) (l : list A) : In x (tl l) -> In x l.
Proof. destruct l; [easy|]. cbn. now right. Qed.

Lemma summariesFollowCalls_snoc (l : list Report) (x : Report) :
  summariesFollowCalls l ->
  (messageId x = noAwaitBeforeReturnPromise ->
   forall ds, data x = Some ds -> forall d, In d ds -> callReported d l) ->
  summariesFollowCalls (l ++ [x]).
Proof.
  intros Hl Hx l1 rep l2 ds E Hm Hd d Hin.
  apply snoc_split in E as [(-> & -> & ->)|(l2' & -> & ->)].
  - now apply (Hx Hm ds).
  - now apply (Hl l1 rep l2' ds).
Qed.

Lemma accounted_emit (ev : Event) (s : State) :
  pendingReported s ->
  summariesFollowCalls (reports s) ->
  pendingReported (emit ev s) /\ summariesFollowCalls (reports (emit ev s)).
Proof.
  intros Hp Hs.
  destruct (emit_cases ev s)
    as [(Hr & _ & Hst)
       |[(sc & cl & Hsc & Hcl & Hid & Hth & Hst & Hr & Hq)
        |(sc & Hsc & Hst & Hr & Hq)]].
  - split; [|now rewrite Hr].
    intros r Hin d Hd. rewrite Hr.
    destruct Hst as [Hst|[Hst|[flag Hst]]]; rewrite Hst in Hin.
    + now apply (Hp r).
    + apply in_tl in Hin. now apply (Hp r).
    + destruct Hin as [<-|Hin]; [destruct Hd|now apply (Hp r)].
  - split.
    + intros r Hin d Hd. rewrite Hr. rewrite Hst in Hin.
      destruct Hin as [<-|Hin].
      * cbn [noAwaitCalls] in Hd. apply in_app_or in Hd as [Hd|[<-|[]]].
        -- apply callReported_app.
           exact (Hp sc (top_in_scopeStack s sc Hsc) d Hd).
        -- eexists. split; [apply in_or_app; right; now left|].
           split; [reflexivity|]. cbn [node]. unfold calleeDescriptor.
           now rewrite Hcl.
      * apply callReported_app. apply in_tl in Hin. now apply (Hp r).
    + rewrite Hr. apply summariesFollowCalls_snoc; [exact Hs|].
      cbn [messageId]. discriminate.
  - split.
    + intros r Hin d Hd. rewrite Hr. rewrite Hst in Hin.
      apply callReported_app. apply in_tl in Hin. now apply (Hp r).
    + rewrite Hr. apply summariesFollowCalls_snoc; [exact Hs|].
      cbn [data]. intros _ ds [= <-] d Hd.
      exact (Hp sc (top_in_scopeStack s sc Hsc) d Hd).
Qed.

Lemma accounted_run (evs : list Event) :
  forall s,
    pendingReported s ->
    summariesFollowCalls (reports s) ->
    pendingReported (run evs s) /\ summariesFollowCalls (reports (run evs s)).
Proof.
  induction evs as [|ev evs IH]; intros s Hp Hs; [now split|].
  cbn [run fold_left].
  destruct (accounted_emit ev s Hp Hs) as [Hp' Hs']. now apply IH.
Qed.

(** X12.  Whatever listener calls are made, in whatever order, starting from
    the empty state: every descriptor that a summary lists belongs to a call
    that was reported on its own earlier in the list of diagnostics, and so
    does every descriptor still held by a record of the chain. *)
Theorem summaries_list_reported_calls (evs : list Event) :
  summariesFollowCalls (reports (run evs initialState))
  /\ pendingReported (run evs initialState).
Proof.
  destruct (accounted_run evs initialState) as [Hp Hs].
  - intros r [].
  - intros l1 rep l2 ds E. cbn in E. now apply app_cons_not_nil in E.
  - now split.
Qed.

Lemma checked_emit (ev : Event) (s : State) :
  callReportsChecked s -> callReportsChecked (emit ev s).
Proof.
  intros Hc rep Hin Hm.
  destruct (emit_cases ev s)
    as [(Hr & (q & Hq & _) & _)
       |[(sc & cl & Hsc & Hcl & Hid & Hth & Hst & Hr & Hq)
        |(sc & Hsc & Hst & Hr & Hq)]];
    rewrite Hr in Hin; rewrite Hq.
  - destruct (Hc rep Hin Hm) as (H1 & H2 & H3 & H4).
    repeat split; try assumption. apply in_or_app. now left.
  - apply in_app_or in Hin as [Hin|[<-|[]]].
    + destruct (Hc rep Hin Hm) as (H1 & H2 & H3 & H4).
      repeat split; try assumption. apply in_or_app. now left.
    + cbn [node rloc]. unfold identifierCallee, calleeLoc. rewrite Hcl.
      repeat split; try assumption. apply in_or_app. right. now left.
  - apply in_app_or in Hin as [Hin|[<-|[]]]; [now apply Hc|discriminate Hm].
Qed.

(** X13.  Whatever listener calls are made, starting from the empty state:
    every [asyncCallNoAwait] sits at the callee of a node that has an
    identifier callee and that the checker was asked about and found
    thenable.  The rule never reports a call on its own guess. *)
Theorem reported_calls_were_checked (evs : list Event) :
  callReportsChecked (run evs initialState).
Proof.
  assert (H : forall s, callReportsChecked s -> callReportsChecked (run evs s)).
  { induction evs as [|ev evs IH]; intros s Hs; [exact Hs|].
    cbn [run fold_left]. apply IH. now apply checked_emit. }
  apply H. intros rep [].
Qed.

(** X14.  Diagnostics and checker queries are only ever added at the end,
    never dropped or reordered, and a listener call adds at most one of
    each. *)
Theorem reports_only_grow (evs : list Event) (s : State) :
  exists newR newQ,
    reports (run evs s) = reports s ++ newR
    /\ typeQueries (run evs s) = typeQueries s ++ newQ
    /\ List.length newR <= List.length evs
    /\ List.length newQ <= List.length evs.
Proof.
  revert s. induction evs as [|ev evs IH]; intro s.
  - exists [], []. cbn. now rewrite !app_nil_r.
  - cbn [run fold_left].
    destruct (IH (emit ev s)) as (nR & nQ & HR & HQ & LR & LQ).
    fold (run evs (emit ev s)) in HR, HQ |- *.
    destruct (emit_cases ev s)
      as [(Hr & (q & Hq & Lq) & _)
         |[(sc & cl & _ & _ & _ & _ & _ & Hr & Hq)
          |(sc & _ & _ & Hr & Hq)]];
      rewrite Hr in HR; rewrite Hq in HQ.
    + exists nR, (q ++ nQ). rewrite <- app_assoc in HQ.
      repeat split; try assumption; rewrite ?length_app; cbn; lia.
    + rewrite <- app_assoc in HR, HQ. eexists _, _.
      split; [exact HR|]. split; [exact HQ|]. cbn. lia.
    + rewrite <- app_assoc in HR. eexists _, nQ.
      split; [exact HR|]. split; [exact HQ|]. cbn. lia.
Qed.

End MoreFacts.

(* ================================================================= *)
(** * The scenarios of the specification *)

Example scenario_unawaited :
  map digest (reports (@analyse everyCallThenable unawaitedProgram))
  = [([0; 1; 0; 0], asyncCallNoAwait, None);
     ([0], noAwaitBeforeReturnPromise, Some ["g(line: 1)"%string])].
Proof. reflexivity. Qed.

Example scenario_awaited :
  reports (@analyse everyCallThenable awaitedProgram) = [].
Proof. reflexivity. Qed.

Example scenario_returned :
  reports (@analyse everyCallThenable returnedProgram) = [].
Proof. reflexivity. Qed.

Example scenario_sync :
  reports (@analyse everyCallThenable syncProgram) = [].
Proof. reflexivity. Qed.

Example scenario_nested :
  map digest (reports (@analyse everyCallThenable nestedProgram))
  = [([0; 1; 0; 1; 0; 0], asyncCallNoAwait, None);
     ([0; 1; 0], noAwaitBeforeReturnPromise, Some ["g(line: 1)"%string])].
Proof. reflexivity. Qed.

Example scenario_member :
  reports (@analyse everyCallThenable memberProgram) = [].
Proof. reflexivity. Qed.

Example scenario_for_await :
  reports (@analyse everyCallThenable forAwaitProgram) = [].
Proof. reflexivity. Qed.

(** The body of a bare-await arrow matches two selectors: it is entered and
    left twice, and the chain is empty again at the end. *)
Example scenario_bare_await_arrow :
  map trace (traverse [] [] bareAwaitArrowProgram)
  = [(Enter, SelArrowFunctionExpression, [0; 0]);
     (Enter, SelAwaitExpression, [0; 0; 0]);
     (Enter, SelAsyncArrowAwait, [0; 0; 0]);
     (Enter, SelCallExpression, [0; 0; 0; 0]);
     (Exit, SelAwaitExpression, [0; 0; 0]);
     (Exit, SelAsyncArrowAwait, [0; 0; 0]);
     (Exit, SelArrowFunctionExpression, [0; 0])]
  /\ @analyse everyCallThenable bareAwaitArrowProgram
     = mkState None [] [].
Proof. split; reflexivity. Qed.

(* ================================================================= *)
(** * The claims on sample programs *)

Ltac in_list := vm_compute; repeat (first [left; reflexivity | right]).

(** [async function f() { g(); }]: one diagnostic on the call, one on [f]. *)
Lemma unawaited_calls_reported_with_summary_witness :
  reportsAt [0; 1; 0; 0] (reports (@analyse everyCallThenable unawaitedProgram))
  = [mkReport ([0; 1; 0; 0], callG) (span 1 21 22) asyncCallNoAwait None]
  /\ reportsAt [0] (reports (@analyse everyCallThenable unawaitedProgram))
     = [mkReport ([0], declF true [stmt callG]) (span 1 0 27)
                 noAwaitBeforeReturnPromise (Some ["g(line: 1)"%string])].
Proof.
  destruct (@unawaited_calls_reported_with_summary everyCallThenable
              unawaitedProgram ([0], declF true [stmt callG])
              [([], unawaitedProgram)]) as [Hcalls Hsum].
  - in_list.
  - reflexivity.
  - reflexivity.
  - vm_compute. discriminate.
  - split; [|exact Hsum].
    destruct (Hcalls ([0; 1; 0; 0], callG)) as (cl & Hcl & _ & H).
    + in_list.
    + vm_compute in Hcl. injection Hcl as <-. exact H.
Defined.

(** [function f() { g(); }]: the listener returns at once and the call gets
    no diagnostic. *)
Lemma call_outside_checkable_scope_is_skipped_witness :
  @onCallExpression everyCallThenable ([0; 1; 0; 0], callG) initialState
  = initialState
  /\ reportsAt [0; 1; 0; 0] (reports (@analyse everyCallThenable syncProgram))
     = [].
Proof.
  destruct (@call_outside_checkable_scope_is_skipped everyCallThenable
              ([0; 1; 0; 0], callG) initialState syncProgram
              ([0; 1; 0; 0], callG) ([0], declF false [stmt callG])
              (chainAt syncProgram [0; 1; 0; 0])) as [H1 H2].
  split.
  - apply H1. left. reflexivity.
  - apply (proj1 (H2 ltac:(in_list) eq_refl eq_refl eq_refl)).
Defined.

(** [async function f() { obj.g(); }]: nothing recorded, nothing reported. *)
Lemma non_identifier_callee_never_reported_witness :
  scopeInfo (@onCallExpression everyCallThenable ([0; 1; 0; 0], callObjG)
               sampleState)
  = scopeInfo sampleState
  /\ reportsAt [0; 1; 0; 0] (reports (@analyse everyCallThenable memberProgram))
     = [].
Proof.
  destruct (@non_identifier_callee_never_reported everyCallThenable
              ([0; 1; 0; 0], callObjG) sampleState memberProgram
              (chainAt memberProgram [0; 1; 0; 0]) eq_refl) as (H1 & _ & _ & H3).
  split; [exact H1|]. apply H3; [in_list|reflexivity].
Defined.

(** [async function f() { await g(); }]: no diagnostic on the call. *)
Lemma suspension_boundary_switches_check_off_witness :
  reportsAt [0; 1; 0; 0; 0]
            (reports (@analyse everyCallThenable awaitedProgram)) = [].
Proof.
  destruct (@suspension_boundary_switches_check_off everyCallThenable
              ([0; 1; 0; 0], awaitOf (span 1 21 30) callG) sampleState
              [] [0; 1; 0; 0] (awaitOf (span 1 21 30) callG)
              awaitedProgram ([0; 1; 0; 0; 0], callG)
              ([0; 1; 0; 0], awaitOf (span 1 21 30) callG)
              (chainAt awaitedProgram [0; 1; 0; 0; 0])) as (_ & _ & H).
  destruct H as [H _]; [in_list|reflexivity|reflexivity|left; reflexivity|exact H].
Defined.

(** [async function outer() { async function inner() { g(); } }]: the call
    is in [inner]'s summary and [outer] gets none. *)
Lemma calls_attributed_to_innermost_function_witness :
  reportsAt [0; 1; 0] (reports (@analyse everyCallThenable nestedProgram))
  = [mkReport ([0; 1; 0], declInner) (span 1 26 55)
              noAwaitBeforeReturnPromise (Some ["g(line: 1)"%string])]
  /\ reportsAt [0] (reports (@analyse everyCallThenable nestedProgram)) = [].
Proof.
  destruct (@calls_attributed_to_innermost_function everyCallThenable
              (Enter, SelCallExpression, ([0; 1; 0; 1; 0; 0], callG))
              sampleState nestedProgram
              ([0], declOuter) ([0; 1; 0], declInner)
              ([0; 1; 0; 1; 0; 0], callG)
              [([], nestedProgram)]
              [([0; 1], block [declInner])]
              [([0; 1; 0; 1; 0], stmt callG); ([0; 1; 0; 1], block [stmt callG])])
    as [_ H].
  destruct H as (_ & Hin & _ & Hout);
    [in_list|reflexivity|in_list|reflexivity|reflexivity|in_list
    |reflexivity|reflexivity|].
  split; [exact Hin|exact Hout].
Defined.

(** An exit call with no scope record. *)
Lemma exit_without_scope_is_noop_witness :
  @exitFunction everyCallThenable ([0], declF true [stmt callG]) initialState
  = initialState
  /\ exitShortCircuitExpression ([0], declF true [stmt callG]) initialState
     = initialState.
Proof.
  destruct (@exit_without_scope_is_noop everyCallThenable
              ([0], declF true [stmt callG]) initialState
              SelFunctionDeclaration eq_refl) as (H1 & H2 & _).
  split; [exact H1|exact H2].
Defined.

(** [async function f() { await g(); }]: nothing on the await expression. *)
Lemma boundary_exit_reports_nothing_witness :
  reportsAt [0; 1; 0; 0] (reports (@analyse everyCallThenable awaitedProgram))
  = []
  /\ reports (@emit everyCallThenable
                (Exit, SelAwaitExpression,
                 ([0; 1; 0; 0], awaitOf (span 1 21 30) callG)) sampleState)
     = reports sampleState.
Proof.
  destruct (@boundary_exit_reports_nothing everyCallThenable
              ([0; 1; 0; 0], awaitOf (span 1 21 30) callG) sampleState
              Exit SelAwaitExpression
              ([0; 1; 0; 0], awaitOf (span 1 21 30) callG)
              awaitedProgram ([0; 1; 0; 0], awaitOf (span 1 21 30) callG)
              (chainAt awaitedProgram [0; 1; 0; 0])) as (_ & _ & H3 & H4).
  split; [apply H4; [in_list|reflexivity]|apply H3; reflexivity].
Defined.

(** Two hosts with the same answers on [async function f() { g(); }]. *)
Lemma analysis_is_deterministic_witness :
  reports (@analyse everyCallThenable unawaitedProgram)
  = reports (@analyse everyCallThenable' unawaitedProgram).
Proof.
  apply (analysis_is_deterministic everyCallThenable everyCallThenable'
           (traverse [] [] unawaitedProgram) initialState).
  intros ph sel ref _. repeat split; intro H; discriminate H.
Defined.

(** The walk over [async function f() { g(); }] keeps the invariant. *)
Lemma suppressed_scopes_stay_empty_witness :
  suppressedScopesEmpty
    (@run everyCallThenable (traverse [] [] unawaitedProgram) sampleState)
  = true.
Proof.
  apply (@suppressed_scopes_stay_empty everyCallThenable
           (traverse [] [] unawaitedProgram)
           (Enter, SelFunctionDeclaration, ([0], declF true [stmt callG]))
           sampleState).
  reflexivity.
Defined.

(** [async function f() { await (async () => { g(); })(); }]: the call in
    the arrow is reported although the arrow is awaited. *)
Lemma function_scope_decides_checkability_witness :
  reportsAt [0; 1; 0; 0; 0; 0; 0; 0; 0]
            (reports (@analyse everyCallThenable awaitedArrowProgram))
  = [mkReport ([0; 1; 0; 0; 0; 0; 0; 0; 0], callG) (span 1 21 22)
              asyncCallNoAwait None].
Proof.
  destruct (@function_scope_decides_checkability everyCallThenable
              ([0; 1; 0; 0; 0; 0], arrowG) sampleState
              [] [0; 1; 0; 0; 0; 0] arrowG awaitedArrowProgram
              ([0; 1; 0; 0; 0; 0; 0; 0; 0], callG)
              ([0; 1; 0; 0; 0; 0], arrowG)
              (chainAt awaitedArrowProgram [0; 1; 0; 0; 0; 0; 0; 0; 0]))
    as (_ & _ & H).
  apply H; [in_list|reflexivity|reflexivity|reflexivity|reflexivity].
Defined.

(* ================================================================= *)
(** * The further properties on sample programs *)

(** The diagnostic on [g()] in [async function f() { g(); }] is founded. *)
Lemma every_diagnostic_is_justified_witness :
  exists encl,
    In (([0; 1; 0; 0], callG), encl) (nodesOf unawaitedProgram)
    /\ @thenableIdentifierCall everyCallThenable ([0; 1; 0; 0], callG) = true
    /\ checkable encl = true.
Proof.
  destruct (@every_diagnostic_is_justified everyCallThenable unawaitedProgram
              (mkReport ([0; 1; 0; 0], callG) (span 1 21 22)
                        asyncCallNoAwait None))
    as (encl & Hin & [(_ & Hv & Hchk)|(H & _)]).
  - in_list.
  - exists encl. split; [exact Hin|]. split; [exact Hv|exact Hchk].
  - discriminate H.
Defined.

Lemma at_most_one_diagnostic_per_node_witness :
  List.length
    (reportsAt [0] (reports (@analyse everyCallThenable unawaitedProgram)))
  <= 1.
Proof.
  apply (@at_most_one_diagnostic_per_node everyCallThenable unawaitedProgram
           ([0], declF true [stmt callG]) [([], unawaitedProgram)]).
  in_list.
Defined.

(** The walk over [async function f() { g(); }] from a state that is not
    empty. *)
Lemma summary_follows_the_function_body_witness :
  exists inner,
    reports (@run everyCallThenable
               (traverse [] [0] (declF true [stmt callG])) sampleState)
    = inner ++ [mkReport ([0], declF true [stmt callG]) (span 1 0 27)
                         noAwaitBeforeReturnPromise
                         (Some ["g(line: 1)"%string])]
    /\ In (mkReport ([0; 1; 0; 0], callG) (span 1 21 22) asyncCallNoAwait None)
          inner.
Proof.
  destruct (@summary_follows_the_function_body everyCallThenable
              [] [0] (declF true [stmt callG]) sampleState)
    as (inner & Hrep & Hcalls & _).
  - reflexivity.
  - reflexivity.
  - vm_compute. discriminate.
  - exists inner. split; [exact Hrep|].
    apply (Hcalls ([0; 1; 0; 0], callG)). in_list.
Defined.

(** [obj.g()] in an asynchronous function is type-checked. *)
Lemma call_is_queried_iff_checkable_witness :
  In ([0; 1; 0; 0], callObjG)
     (typeQueries (@analyse everyCallThenable memberProgram)).
Proof.
  apply (@call_is_queried_iff_checkable everyCallThenable memberProgram
           ([0; 1; 0; 0], callObjG) (chainAt memberProgram [0; 1; 0; 0])).
  - in_list.
  - reflexivity.
  - split; reflexivity.
Defined.

(** [g();] at the top level. *)
Lemma top_level_call_is_ignored_witness :
  reportsAt [0; 0] (reports (@analyse everyCallThenable topLevelProgram)) = []
  /\ ~ In ([0; 0], callG)
          (typeQueries (@analyse everyCallThenable topLevelProgram)).
Proof.
  apply (@top_level_call_is_ignored everyCallThenable topLevelProgram
           ([0; 0], callG) (chainAt topLevelProgram [0; 0])).
  - in_list.
  - reflexivity.
  - reflexivity.
Defined.

(** [g()] in the body of a for-await loop. *)
Lemma for_await_suppresses_its_subtree_witness :
  reportsAt [0; 1; 0; 2; 0; 0]
            (reports (@analyse everyCallThenable forAwaitProgram)) = []
  /\ ~ In ([0; 1; 0; 2; 0; 0], callG)
          (typeQueries (@analyse everyCallThenable forAwaitProgram)).
Proof.
  destruct (@for_await_suppresses_its_subtree everyCallThenable forAwaitProgram
              ([0; 1; 0; 2; 0; 0], callG) ([0; 1; 0], forAwaitLoop)
              (chainAt forAwaitProgram [0; 1; 0; 2; 0; 0]))
    as (_ & H1 & H2 & _).
  - in_list.
  - reflexivity.
  - reflexivity.
  - reflexivity.
  - split; [exact H1|exact H2].
Defined.

(** [g()] in the body of a plain for-of loop is reported. *)
Lemma plain_nesting_is_transparent_witness :
  reportsAt [0; 1; 0; 2; 0; 0]
            (reports (@analyse everyCallThenable plainForOfProgram))
  = [mkReport ([0; 1; 0; 2; 0; 0], callG) (span 1 21 22) asyncCallNoAwait None].
Proof.
  apply (@plain_nesting_is_transparent everyCallThenable plainForOfProgram
           ([0; 1; 0; 2; 0; 0], callG)
           [([0; 1; 0; 2; 0], stmt callG); ([0; 1; 0; 2], block [stmt callG]);
            ([0; 1; 0], plainForOfLoop); ([0; 1], block [plainForOfLoop])]
           [([0], declF true [plainForOfLoop]); ([], plainForOfProgram)]).
  - in_list.
  - reflexivity.
  - reflexivity.
Defined.

(** The reported [g()] of [async function f() { g(); }] is in [f]'s
    summary. *)
Lemma reported_call_is_listed_in_a_summary_witness :
  exists f enclf,
    In (f, enclf) (nodesOf unawaitedProgram)
    /\ In ([0; 1; 0; 0], callG) (@ownCalls everyCallThenable (fst f) (snd f)).
Proof.
  destruct (@reported_call_is_listed_in_a_summary everyCallThenable
              unawaitedProgram ([0; 1; 0; 0], callG)
              (chainAt unawaitedProgram [0; 1; 0; 0]))
    as (f & enclf & Hin & _ & _ & Hown & _).
  - in_list.
  - reflexivity.
  - vm_compute. discriminate.
  - exists f, enclf. split; [exact Hin|exact Hown].
Defined.
